(** * bbkm: mesh modification pipeline ([src/bbkm/modifications.py])

    A shallow embedding of [fill_battery_gap], [add_magsafe_recess] and
    [apply_modifications], together with the [find_battery_gap] search
    region of [src/bbkm/analyzer.py] and the hole count of
    [src/bbkm/hole_detector.py].

    Coordinates are NumPy float64 values in the source.  They are modelled
    as exact rationals ([Q]); every concrete mesh used below has
    coordinates that float64 represents exactly.  Vertex arrays are lists
    of points, face arrays are lists of index triples, and the Python
    exceptions the code can raise are an explicit [result] type. *)

From Stdlib Require Import QArith Qminmax Qround Qabs Lia Lqa.
From Stdlib Require Import Reals Qreals Lra Sorted.
From stdpp Require Import base list pretty.


(* ================================================================== *)
(** ** Exceptions *)

Inductive exn : Set :=
| ValueError   (* reduction of an empty array: [ndarray.min] *)
| TypeError    (* subscripting [None]: [mesh.bounds] of an empty mesh *)
| IndexError   (* a face refers to a vertex that does not exist *)
| QhullError.  (* [scipy.spatial.Delaunay] on degenerate input *)

Inductive result (A : Type) : Type :=
| Ok (a : A)
| Raise (e : exn).
Arguments Ok {A} a.
Arguments Raise {A} e.

Definition bind {A B} (r : result A) (k : A -> result B) : result B :=
  match r with
  | Ok a => k a
  | Raise e => Raise e
  end.

Notation "x <-' r ; k" := (bind r (fun x => k))
  (at level 100, r at next level, right associativity,
   format "'[v' x  <-'  r ; '/' k ']'").

(* ================================================================== *)
(** ** NumPy primitives used by the source *)

Module Np.

Definition ltb (x y : Q) : bool :=
  match (x ?= y)%Q with Lt => true | _ => false end.

Definition leb (x y : Q) : bool :=
  match (x ?= y)%Q with Gt => false | _ => true end.

(** [a.min()]; raises [ValueError] on a zero-size array. *)
Definition min (l : list Q) : result Q :=
  match l with
  | [] => Raise ValueError
  | x :: l' => Ok (foldl Qmin x l')
  end.

Definition max (l : list Q) : result Q :=
  match l with
  | [] => Raise ValueError
  | x :: l' => Ok (foldl Qmax x l')
  end.

(** [np.arange(start, stop, step)]:
    [ceil((stop - start) / step)] values [start + i * step]. *)
Definition arange (start stop step : Q) : list Q :=
  map (fun i : nat => (start + inject_Z (Z.of_nat i) * step)%Q)
      (seq 0 (Z.to_nat (Qceiling ((stop - start) / step)%Q))).

(** [np.rint]: nearest integer, ties to the even one. *)
Definition rint (q : Q) : Z :=
  let f := Qfloor q in
  match (q - inject_Z f ?= 1 # 2)%Q with
  | Lt => f
  | Gt => (f + 1)%Z
  | Eq => if Z.even f then f else (f + 1)%Z
  end.

(** [np.round(x, decimals=2)], kept as the integer number of
    hundredths. *)
Definition round2 (q : Q) : Z := rint (q * 100)%Q.

Definition of_hundredths (k : Z) : Q := (inject_Z k / 100)%Q.

(** [np.pi] is the float64 nearest to pi, a rational number. *)
Definition pi : Q := (884279719003555 # 281474976710656)%Q.

(** [np.linspace(start, stop, num, endpoint=False)]. *)
Definition linspace (start stop : Q) (num : nat) : list Q :=
  let step := ((stop - start) / inject_Z (Z.of_nat num))%Q in
  map (fun i : nat => (start + inject_Z (Z.of_nat i) * step)%Q) (seq 0 num).

(** [np.where(mask)[0]]. *)
Definition where_ (mask : list bool) : list nat :=
  filter (fun i => default false (mask !! i) = true) (seq 0 (length mask)).

(** Boolean-mask indexing [a[mask]]. *)
Fixpoint select {A} (mask : list bool) (a : list A) : list A :=
  match mask, a with
  | b :: mask', x :: a' =>
      if b then x :: select mask' a' else select mask' a'
  | _, _ => []
  end.

End Np.

(* ================================================================== *)
(** ** Meshes *)

(** A row of [mesh.vertices]. *)
Record vertex : Set := V3 { vx : Q; vy : Q; vz : Q }.

(** A row of [mesh.faces]: three vertex indices; their order is the
    winding. *)
Definition face : Set := (nat * nat * nat)%type.

Record mesh : Set := Trimesh { vertices : list vertex; faces : list face }.

Definition face_indices (f : face) : list nat :=
  let '(a, b, c) := f in [a; b; c].

Definition face_in_range (n : nat) (f : face) : Prop :=
  Forall (fun i => i < n) (face_indices f).

Definition faces_in_range (m : mesh) : Prop :=
  Forall (face_in_range (length (vertices m))) (faces m).

(** [faces + offset]. *)
Definition shift_face (offset : nat) (f : face) : face :=
  let '(a, b, c) := f in (offset + a, offset + b, offset + c).

Definition map_face (g : nat -> nat) (f : face) : face :=
  let '(a, b, c) := f in (g a, g b, g c).

(** [face[::-1]], the face with its winding reversed. *)
Definition flip (f : face) : face :=
  let '(a, b, c) := f in (c, b, a).

(** The corner points of a face, when all three indices exist. *)
Definition corners (vs : list vertex) (f : face) : option (list vertex) :=
  let '(a, b, c) := f in
  p ← vs !! a; q ← vs !! b; r ← vs !! c; Some [p; q; r].

Definition vsub (p q : vertex) : vertex :=
  V3 (vx p - vx q) (vy p - vy q) (vz p - vz q).

Definition cross (u v : vertex) : vertex :=
  V3 (vy u * vz v - vz u * vy v)
     (vz u * vx v - vx u * vz v)
     (vx u * vy v - vy u * vx v).

Definition dot (u v : vertex) : Q :=
  (vx u * vx v + vy u * vy v + vz u * vz v)%Q.

(** The normal of a face by the right-hand rule on its winding, not
    scaled to unit length: [(q - p) x (r - p)]. *)
Definition face_normal (vs : list vertex) (f : face) : option vertex :=
  match corners vs f with
  | Some [p; q; r] => Some (cross (vsub q p) (vsub r p))
  | _ => None
  end.

Definition face_normals (m : mesh) : list (option vertex) :=
  map (face_normal (vertices m)) (faces m).

(** Six times the signed volume enclosed by the faces. *)
Definition signed_volume6 (m : mesh) : Q :=
  foldr Qplus 0%Q
    (map (fun f => match corners (vertices m) f with
                   | Some [p; q; r] => dot p (cross q r)
                   | _ => 0%Q
                   end) (faces m)).

(** Indices that occur in some face. *)
Definition used (fs : list face) : list nat := fs ≫= face_indices.

Definition referenced_mask (m : mesh) : list bool :=
  map (fun i => bool_decide (i ∈ used (faces m)))
      (seq 0 (length (vertices m))).

(** [mesh.bounds]: the bounding box of the referenced vertices, [None]
    when there is none. *)
Definition bounds (m : mesh) : option (vertex * vertex) :=
  let in_mesh := Np.select (referenced_mask m) (vertices m) in
  match Np.min (map vx in_mesh), Np.min (map vy in_mesh), Np.min (map vz in_mesh),
        Np.max (map vx in_mesh), Np.max (map vy in_mesh), Np.max (map vz in_mesh) with
  | Ok x0, Ok y0, Ok z0, Ok x1, Ok y1, Ok z1 => Some (V3 x0 y0 z0, V3 x1 y1 z1)
  | _, _, _, _, _, _ => None
  end.

(* ================================================================== *)
(** ** Mesh repair *)

Module Repair.

(** Modelled from the spec: the four repair operations are methods of
    the [trimesh] package, which is not part of the sources.  The
    definitions below follow section 4.4 of the specification (merge
    vertices within tolerance and remap the faces; remove degenerate
    faces; remove duplicate faces, whatever their winding, keeping one;
    remove unreferenced vertices) and the data model's "rounding to
    0.01 mm" for the merge tolerance. *)

Section dedup.
Context {A K : Type} `{EqDecision K} (key : A -> K).

(** Keeps, for every key, the first element that carries it. *)
Fixpoint dedup_by (l : list A) : list A :=
  match l with
  | [] => []
  | x :: l' => x :: filter (fun y => key y ≠ key x) (dedup_by l')
  end.

(** Position of the first element with key [k]. *)
Definition index_of (k : K) (l : list A) : option nat :=
  fst <$> list_find (fun y => key y = k) l.
End dedup.

Definition vertex_key (v : vertex) : Z * Z * Z :=
  (Np.round2 (vx v), Np.round2 (vy v), Np.round2 (vz v)).

Fixpoint map_result {A B} (g : A -> result B) (l : list A) : result (list B) :=
  match l with
  | [] => Ok []
  | x :: l' => y <-' g x; ys <-' map_result g l'; Ok (y :: ys)
  end.

(** New index of vertex [i] after the merge: the position, among the
    kept vertices, of the first vertex with the same key.  A face index
    without a vertex is the fatal "RepairInconsistency". *)
Definition merged_index (vs kept : list vertex) (i : nat) : result nat :=
  match vs !! i with
  | None => Raise IndexError
  | Some v =>
      match index_of vertex_key (vertex_key v) kept with
      | Some j => Ok j
      | None => Raise IndexError
      end
  end.

Definition merged_face (vs kept : list vertex) (f : face) : result face :=
  let '(a, b, c) := f in
  a' <-' merged_index vs kept a;
  b' <-' merged_index vs kept b;
  c' <-' merged_index vs kept c;
  Ok (a', b', c').

Definition merge_vertices (m : mesh) : result mesh :=
  let kept := dedup_by vertex_key (vertices m) in
  fs <-' map_result (merged_face (vertices m) kept) (faces m);
  Ok (Trimesh kept fs).

Definition is_zero (q : Q) : bool := Qeq_bool q 0.

Definition zero_area (p q r : vertex) : bool :=
  let n := cross (vsub q p) (vsub r p) in
  is_zero (vx n) && is_zero (vy n) && is_zero (vz n).

(** A repeated vertex index, or corner points spanning no area. *)
Definition degenerate (vs : list vertex) (f : face) : bool :=
  let '(a, b, c) := f in
  bool_decide (a = b ∨ b = c ∨ a = c)
  || match corners vs f with
     | Some [p; q; r] => zero_area p q r
     | _ => false
     end.

Definition remove_degenerate_faces (m : mesh) : mesh :=
  Trimesh (vertices m)
          (filter (fun f => degenerate (vertices m) f = false) (faces m)).

(** The vertex set of a face: its indices in increasing order. *)
Definition face_set (f : face) : face :=
  let '(a, b, c) := f in
  if a <=? b then
    if b <=? c then (a, b, c)
    else if a <=? c then (a, c, b) else (c, a, b)
  else
    if a <=? c then (b, a, c)
    else if b <=? c then (b, c, a) else (c, b, a).

Definition remove_duplicate_faces (m : mesh) : mesh :=
  Trimesh (vertices m) (dedup_by face_set (faces m)).

(** Number of kept entries before position [i]. *)
Fixpoint rank (mask : list bool) (i : nat) : nat :=
  match mask, i with
  | b :: mask', S i' => (if b then 1 else 0) + rank mask' i'
  | _, _ => 0
  end.

Definition remove_unreferenced_vertices (m : mesh) : mesh :=
  let mask := referenced_mask m in
  Trimesh (Np.select mask (vertices m))
          (map (map_face (rank mask)) (faces m)).

(** The sequence applied after every structural edit. *)
Definition repair (m : mesh) : result mesh :=
  m1 <-' merge_vertices m;
  Ok (remove_unreferenced_vertices
        (remove_duplicate_faces (remove_degenerate_faces m1))).

End Repair.

(** The vertex that stands for [v] once near-duplicates are merged: the
    first vertex of the array with the merge key of [v]. *)
Definition representative (vs : list vertex) (v : vertex) : vertex :=
  default v (snd <$> list_find
               (fun w => Repair.vertex_key w = Repair.vertex_key v) vs).

(** The vertex array with every vertex replaced by its representative. *)
Definition merged_positions (vs : list vertex) : list vertex :=
  representative vs <$> vs.

(** The merge keys of the corners of a face, in the order of its
    indices. *)
Definition corner_keys (vs : list vertex) (f : face) : list (option (Z * Z * Z)) :=
  (fun i => Repair.vertex_key <$> vs !! i) <$> face_indices f.

(** What the data model promises of a mesh after repair: face indices in
    range, no two vertices with the same merge key, no degenerate face,
    no two faces with the same vertex set, no unreferenced vertex. *)
Definition repaired (m : mesh) : Prop :=
  faces_in_range m
  /\ NoDup (Repair.vertex_key <$> vertices m)
  /\ Forall (fun f => Repair.degenerate (vertices m) f = false) (faces m)
  /\ NoDup (Repair.face_set <$> faces m)
  /\ Forall (fun b => b = true) (referenced_mask m).

(* ================================================================== *)
(** ** [analyzer.find_battery_gap] *)

(** The search region [(gap_min, gap_max)], or [None] for the pair
    [(None, None)]. *)
Definition find_battery_gap (m : mesh) : result (option (vertex * vertex)) :=
  let vs := vertices m in
  z_min <-' Np.min (map vz vs);
  let z_threshold := (z_min + 2)%Q in
  let bottom_vertices_mask := map (fun v => Np.leb (vz v) z_threshold) vs in
  let bottom_vertex_indices := Np.where_ bottom_vertices_mask in
  if length bottom_vertex_indices =? 0 then Ok None
  else
    let bottom_verts := Np.select bottom_vertices_mask vs in
    bx0 <-' Np.min (map vx bottom_verts);
    by0 <-' Np.min (map vy bottom_verts);
    bx1 <-' Np.max (map vx bottom_verts);
    by1 <-' Np.max (map vy bottom_verts);
    let x_center := ((bx0 + bx1) / 2)%Q in
    let y_center := ((by0 + by1) / 2)%Q in
    let gap_search_width := ((bx1 - bx0) * (6 # 10))%Q in
    let gap_search_height := ((by1 - by0) * (6 # 10))%Q in
    Ok (Some (V3 (x_center - gap_search_width / 2)
                 (y_center - gap_search_height / 2)
                 z_min,
              V3 (x_center + gap_search_width / 2)
                 (y_center + gap_search_height / 2)
                 (z_min + 5))).

(* ================================================================== *)
(** ** [modifications.py] *)

(** Row-wise [np.unique(rows, axis=0)] on rows of hundredths: the
    distinct rows in lexicographic order. *)
Definition row : Set := (Z * Z * Z)%type.

Definition row_compare (r s : row) : comparison :=
  let '(a, b, c) := r in
  let '(a', b', c') := s in
  match (a ?= a')%Z with
  | Eq => match (b ?= b')%Z with
          | Eq => (c ?= c')%Z
          | o => o
          end
  | o => o
  end.

Fixpoint insert_row (r : row) (l : list row) : list row :=
  match l with
  | [] => [r]
  | s :: l' =>
      match row_compare r s with
      | Lt => r :: l
      | Eq => l
      | Gt => s :: insert_row r l'
      end
  end.

Definition unique_rows (l : list row) : list row := foldr insert_row [] l.

(** [np.round(points, decimals=2)] on a point. *)
Definition round_row (v : vertex) : row :=
  (Np.round2 (vx v), Np.round2 (vy v), Np.round2 (vz v)).

Definition row_vertex (r : row) : vertex :=
  let '(a, b, c) := r in
  V3 (Np.of_hundredths a) (Np.of_hundredths b) (Np.of_hundredths c).

(** [vertices[:, 2].min()]. *)
Definition z_min_of (vs : list vertex) : result Q := Np.min (map vz vs).

(** The back-plane mask of [fill_battery_gap]:
    [np.abs(vertices[:, 2] - z_min) < z_threshold] with
    [z_threshold = z_min + 0.5]. *)
Definition fill_back_vertices_mask (vs : list vertex) (z_min : Q) : list bool :=
  let z_threshold := (z_min + (1 # 2))%Q in
  map (fun v => Np.ltb (Qabs (vz v - z_min)) z_threshold) vs.

(** The back-surface mask of [add_magsafe_recess]:
    [np.abs(vertices[:, 2] - z_min) < 0.5]. *)
Definition back_surface_mask (vs : list vertex) (z_min : Q) : list bool :=
  map (fun v => Np.ltb (Qabs (vz v - z_min)) (1 # 2)) vs.

(** The grid of [fill_battery_gap]: the two nested loops over
    [x_points] and [y_points]. *)
Definition grid_vertices (x_min x_max y_min y_max z_min : Q) : list vertex :=
  let grid_density := 2%Q in
  let x_points := Np.arange x_min x_max grid_density in
  let y_points := Np.arange y_min y_max grid_density in
  x ← x_points;
  y ← y_points;
  if Np.leb x_min x && Np.leb x x_max && Np.leb y_min y && Np.leb y y_max
  then [V3 x y z_min]
  else [].

(** [sqrt(s) <= r], decided on the squares: the source compares
    [np.sqrt(dx**2 + dy**2)] with a radius. *)
Definition sqrt_leb (s r : Q) : bool := Np.leb 0 r && Np.leb s (r * r).

(** [dx**2 + dy**2] for a vertex and the recess centre. *)
Definition distance2_from_center (center_x center_y : Q) (v : vertex) : Q :=
  ((vx v - center_x) * (vx v - center_x)
   + (vy v - center_y) * (vy v - center_y))%Q.


Definition num_segments : nat := 64.

(** One wall ring: for every angle a bottom and a top vertex. *)
Definition wall_vertices (np_cos np_sin : Q -> Q)
    (center_x center_y radius z_min depth : Q) (angles : list Q) : list vertex :=
  angle ← angles;
  let x := (center_x + radius * np_cos angle)%Q in
  let y := (center_y + radius * np_sin angle)%Q in
  [V3 x y z_min; V3 x y (z_min + depth)].

(** The two outer-wall faces of segment [i]. *)
Definition outer_wall_faces (vertex_offset i : nat) : list face :=
  let next_i := (i + 1) mod num_segments in
  let v1 := vertex_offset + 2 * i in
  let v2 := vertex_offset + 2 * i + 1 in
  let v3 := vertex_offset + 2 * next_i + 1 in
  let v4 := vertex_offset + 2 * next_i in
  [(v1, v2, v3); (v1, v3, v4)].

(** The two inner-wall faces of segment [i]. *)
Definition inner_wall_faces (vertex_offset i : nat) : list face :=
  let next_i := (i + 1) mod num_segments in
  let v1 := vertex_offset + 2 * num_segments + 2 * i in
  let v2 := vertex_offset + 2 * num_segments + 2 * i + 1 in
  let v3 := vertex_offset + 2 * num_segments + 2 * next_i + 1 in
  let v4 := vertex_offset + 2 * num_segments + 2 * next_i in
  [(v1, v4, v3); (v1, v3, v2)].

(** [new_faces] after the loop [for i in range(num_segments)]. *)
Definition wall_faces (vertex_offset : nat) : list face :=
  i ← seq 0 num_segments;
  outer_wall_faces vertex_offset i ++ inner_wall_faces vertex_offset i.

(** The faces of each wall on their own. *)
Definition outer_wall (vertex_offset : nat) : list face :=
  seq 0 num_segments ≫= outer_wall_faces vertex_offset.

Definition inner_wall (vertex_offset : nat) : list face :=
  seq 0 num_segments ≫= inner_wall_faces vertex_offset.

(** The undirected edges of a face, and the number of faces of a list
    that contain the edge between [u] and [v]. *)
Definition is_edge (u v x y : nat) : bool :=
  (x =? u) && (y =? v) || (x =? v) && (y =? u).

Definition on_edge (u v : nat) (f : face) : bool :=
  let '(a, b, c) := f in
  is_edge u v a b || is_edge u v b c || is_edge u v c a.

Definition edge_count (u v : nat) (fs : list face) : nat :=
  length (filter (fun f => on_edge u v f = true) fs).

(** Two index triples describe the same oriented triangle when one is a
    rotation of the other; [reversed f g] says that [g] is [f] with the
    opposite orientation. *)
Definition rotate (f : face) : face :=
  let '(a, b, c) := f in (b, c, a).

Definition same_winding (f g : face) : Prop :=
  g = f \/ g = rotate f \/ g = rotate (rotate f).

Definition reversed (f g : face) : Prop := same_winding (flip f) g.

Record back_plate : Set := BackPlate {
  back_verts : list vertex;
  x_min : Q; x_max : Q;
  y_min : Q; y_max : Q;
  plate_z : Q
}.

(** [new_vertices] of [fill_battery_gap]. *)
Definition new_vertices (bp : back_plate) : list vertex :=
  grid_vertices (x_min bp) (x_max bp) (y_min bp) (y_max bp) (plate_z bp).

(** [unique_points]: the rounded back vertices and grid points, without
    repetition. *)
Definition unique_points (bp : back_plate) : list vertex :=
  let all_back_points := back_verts bp ++ new_vertices bp in
  map row_vertex (unique_rows (map round_row all_back_points)).

(** The directed edges of a face, [(a, b)], [(b, c)] and [(c, a)]: two
    faces wound consistently never run along the same directed edge. *)
Definition directed_edges (f : face) : list (nat * nat) :=
  let '(a, b, c) := f in [(a, b); (b, c); (c, a)].

(** A triangle standing on the back plane: its two back vertices have
    the same X. *)
Definition upright_triangle : mesh :=
  Trimesh [V3 0 0 0; V3 0 10 0; V3 0 5 8] [(0, 1, 2)].

(** The lexicographic order in which [np.unique] returns rows. *)
Definition row_lt (r s : row) : Prop := row_compare r s = Lt.

(** A boolean test that the pairs of a list are pairwise different, on
    binary numbers. *)
Fixpoint distinct_pairs (l : list (N * N)) : bool :=
  match l with
  | [] => true
  | x :: l' =>
      negb (existsb (fun y => (x.1 =? y.1)%N && (x.2 =? y.2)%N) l')
      && distinct_pairs l'
  end.

Definition edge_code (e : nat * nat) : N * N := (N.of_nat e.1, N.of_nat e.2).

(* ================================================================== *)
(** ** [hole_detector.py] *)

Module Holes.

(** What [mesh.outline()] did: it raised, returned [None], or returned
    a path with [n] entities. *)
Inductive outline_result : Set :=
| OutlineRaises
| OutlineNone
| OutlineEntities (n : nat).

(** [detect_holes_simple], given the outcome of [mesh.outline()] and
    [mesh.euler_number] when the mesh has that attribute. *)
Definition detect_holes_simple (outline : outline_result)
    (euler_number : option Z) : Z :=
  match outline with
  | OutlineEntities n => Z.of_nat n
  | OutlineRaises | OutlineNone =>
      match euler_number with
      | Some euler => Z.max 0 ((2 - euler) / 2)
      | None => (-1)%Z
      end
  end.

Definition newline : string := String (Ascii.ascii_of_nat 10) EmptyString.

Definition verify_hole_count (outline : outline_result)
    (euler_number : option Z) (expected_count : Z) : bool * string :=
  let hole_count := detect_holes_simple outline euler_number in
  if (hole_count =? -1)%Z then (false, "Could not detect holes in mesh"%string)
  else
    let message :=
      ("Detected approximately " ++ pretty hole_count
       ++ " holes/boundaries" ++ newline)%string in
    if (hole_count =? expected_count)%Z
    then (true,
          (message ++ "✓ Matches expected count of "
           ++ pretty expected_count)%string)
    else (false,
          (message ++ "⚠ Expected " ++ pretty expected_count ++ " holes")%string).

End Holes.

Section Modifications.

(** The library functions the source calls and that have no
    definition here: [np.cos], [np.sin], [scipy.spatial.Delaunay]
    (whose [simplices] index the points it was given) and the choice
    made by [Trimesh.fix_normals] of the faces whose winding it
    reverses. *)
Variables np_cos np_sin : Q -> Q.
Variable Delaunay : list (Q * Q) -> result (list face).
Variable winding_mask : mesh -> list bool.

Hypothesis Delaunay_simplices_in_range : forall points tri,
  Delaunay points = Ok tri -> Forall (face_in_range (length points)) tri.

(** [mesh.fix_normals()]: rewrites [faces[i]] as [faces[i][::-1]] for
    the faces it selects; vertices and the number and order of faces
    stay. *)
Definition fix_normals (m : mesh) : mesh :=
  Trimesh (vertices m)
          (imap (fun i f => if default false (winding_mask m !! i)
                            then flip f else f)
                (faces m)).

(** The back plate found by [fill_battery_gap]: the selected
    vertices, their XY bounding box and the plane height; [None] when
    no vertex is selected and the function returns its argument. *)
Definition find_back_plate (m : mesh) : result (option back_plate) :=
  let vertices0 := vertices m in
  z_min <-' z_min_of vertices0;
  let back_vertices_mask := fill_back_vertices_mask vertices0 z_min in
  let back_vertex_indices := Np.where_ back_vertices_mask in
  if length back_vertex_indices =? 0 then Ok None
  else
    let back_verts := Np.select back_vertices_mask vertices0 in
    x_min <-' Np.min (map vx back_verts);
    y_min <-' Np.min (map vy back_verts);
    x_max <-' Np.max (map vx back_verts);
    y_max <-' Np.max (map vy back_verts);
    Ok (Some (BackPlate back_verts x_min x_max y_min y_max z_min)).

(** The arrays [fill_battery_gap] hands to the [Trimesh] constructor
    ([Some]), or [None] when it returns its argument early. *)
Definition fill_arrays (m : mesh) : result (option mesh) :=
  let vertices0 := vertices m in
  let faces0 := faces m in
  plate <-' find_back_plate m;
  match plate with
  | None => Ok None
  | Some bp =>
      if 0 <? length (new_vertices bp) then
        if 3 <? length (unique_points bp) then
          let points_2d := map (fun v => (vx v, vy v)) (unique_points bp) in
          tri <-' Delaunay points_2d;
          let vertex_offset := length vertices0 in
          Ok (Some (Trimesh (vertices0 ++ unique_points bp)
                            (faces0 ++ map (shift_face vertex_offset) tri)))
        else Ok (Some (Trimesh vertices0 faces0))
      else Ok (Some (Trimesh vertices0 faces0))
  end.

Definition fill_battery_gap (m : mesh) : result mesh :=
  arrays <-' fill_arrays m;
  match arrays with
  | None => Ok m
  | Some filled_mesh => Repair.repair filled_mesh
  end.

(** [vertices[ring_area_mask, 2] += depth]. *)
Definition displace (ring_area_mask : list bool) (depth : Q)
    (vs : list vertex) : list vertex :=
  imap (fun i v => if default false (ring_area_mask !! i)
                   then V3 (vx v) (vy v) (vz v + depth) else v) vs.


Definition ring_area_mask (center_x center_y outer_radius inner_radius z_min : Q)
    (vs : list vertex) : list bool :=
  map (fun v =>
         negb (sqrt_leb (distance2_from_center center_x center_y v) inner_radius)
         && sqrt_leb (distance2_from_center center_x center_y v) outer_radius
         && Np.ltb (Qabs (vz v - z_min)) (1 # 2)) vs.

(** The centre of the recess. *)
Definition recess_center (m : mesh) (position : option (Q * Q)) : result (Q * Q) :=
  match position with
  | None =>
      match bounds m with
      | None => Raise TypeError
      | Some (lo, hi) => Ok (((vx lo + vx hi) / 2)%Q, ((vy lo + vy hi) / 2)%Q)
      end
  | Some p => Ok p
  end.

Definition angles : list Q := Np.linspace 0 (2 * Np.pi) num_segments.

(** The arrays [add_magsafe_recess] hands to the [Trimesh]
    constructor. *)
Definition recess_arrays (m : mesh) (outer_radius inner_radius depth : Q)
    (position : option (Q * Q)) : result mesh :=
  let vertices0 := vertices m in
  let faces0 := faces m in
  c <-' recess_center m position;
  let '(center_x, center_y) := c in
  z_min <-' z_min_of vertices0;
  let mask :=
    ring_area_mask center_x center_y outer_radius inner_radius z_min vertices0 in
  let vertices1 := displace mask depth vertices0 in
  let new_vertices :=
    wall_vertices np_cos np_sin center_x center_y outer_radius z_min depth angles
    ++ wall_vertices np_cos np_sin center_x center_y inner_radius z_min depth angles in
  if 0 <? length new_vertices then
    let vertex_offset := length vertices1 in
    let vertices2 := vertices1 ++ new_vertices in
    let new_faces := wall_faces vertex_offset in
    if 0 <? length new_faces
    then Ok (Trimesh vertices2 (faces0 ++ new_faces))
    else Ok (Trimesh vertices2 faces0)
  else Ok (Trimesh vertices1 faces0).

Definition add_magsafe_recess (m : mesh) (outer_radius inner_radius depth : Q)
    (position : option (Q * Q)) : result mesh :=
  modified_mesh <-' recess_arrays m outer_radius inner_radius depth position;
  repaired <-' Repair.repair modified_mesh;
  Ok (fix_normals repaired).

Definition apply_modifications (m : mesh) (remove_battery_gap add_magsafe : bool)
    (magsafe_position : option (Q * Q)) : result mesh :=
  let modified_mesh := m in
  modified_mesh <-' (if remove_battery_gap then fill_battery_gap modified_mesh
                     else Ok modified_mesh);
  modified_mesh <-' (if add_magsafe
                     then add_magsafe_recess modified_mesh 28 (45 # 2) (5 # 2)
                                             magsafe_position
                     else Ok modified_mesh);
  let modified_mesh := fix_normals modified_mesh in
  (* the diagnostic read of the back plate *)
  z_min <-' z_min_of (vertices modified_mesh);
  Ok modified_mesh.


(* ================================================================ *)
(** ** Meshes and library instances used in the examples *)

(** A 10 x 10 back plate at height 0. *)
Definition square_plate : mesh :=
  Trimesh [V3 0 0 0; V3 10 0 0; V3 10 10 0; V3 0 10 0]
          [(0, 1, 2); (0, 2, 3)].

(** Two parallel triangles, at heights 10 and 15. *)
Definition raised_plates : mesh :=
  Trimesh [V3 0 0 10; V3 10 0 10; V3 0 10 10;
           V3 0 0 15; V3 10 0 15; V3 0 10 15]
          [(0, 1, 2); (3, 4, 5)].

(** A triangle at height -1. *)
Definition sunk_triangle : mesh :=
  Trimesh [V3 0 0 (-1); V3 10 0 (-1); V3 0 10 (-1)] [(0, 1, 2)].

(** A tetrahedron whose four faces are wound consistently, with the
    normals pointing into the solid. *)
Definition inverted_tetrahedron : mesh :=
  Trimesh [V3 0 0 0; V3 1 0 0; V3 0 1 0; V3 0 0 1]
          [(0, 1, 2); (0, 3, 1); (0, 2, 3); (1, 3, 2)].

(** The same tetrahedron wound outwards. *)
Definition tetrahedron : mesh :=
  Trimesh [V3 0 0 0; V3 1 0 0; V3 0 1 0; V3 0 0 1]
          [(2, 1, 0); (1, 3, 0); (3, 2, 0); (2, 3, 1)].

(** Two back vertices only: the grid adds one point, which rounds to
    one of them. *)
Definition sliver : mesh :=
  Trimesh [V3 0 0 0; V3 1 1 0; V3 0 0 3] [(0, 1, 2)].

(** The square plate with a degenerate face high above it. *)
Definition plate_with_needle : mesh :=
  Trimesh [V3 0 0 0; V3 10 0 0; V3 10 10 0; V3 0 10 0;
           V3 0 0 5; V3 1 0 5]
          [(0, 1, 2); (0, 2, 3); (4, 4, 5)].

(** A 100 x 100 back plate with two more vertices, 25 and 10 away from
    its centre. *)
Definition wide_plate : mesh :=
  Trimesh [V3 0 0 0; V3 100 0 0; V3 100 100 0; V3 0 100 0;
           V3 75 50 0; V3 60 50 0]
          [(0, 1, 4); (1, 2, 4); (2, 3, 4); (3, 0, 4); (0, 1, 5)].

Definition empty_mesh : mesh := Trimesh [] [].

(** A triangulation by a fan around the first point: enough to run
    the pipeline on examples. *)
Definition fan_triangulation (points : list (Q * Q)) : result (list face) :=
  Ok (map (fun i => (0, S i, S (S i))) (seq 0 (length points - 2))).

(** The part of [fix_normals] that acts on a consistently wound single
    body: every face is reversed when the enclosed volume is
    negative. *)
Definition inversion_mask (m : mesh) : list bool :=
  replicate (length (faces m)) (Np.ltb (signed_volume6 m) 0).

(** Truncated power series, as stand-ins for [np.cos] and [np.sin]
    in examples. *)
Definition series_cos (x : Q) : Q := (1 - x * x / 2 + x * x * x * x / 24)%Q.
Definition series_sin (x : Q) : Q := (x - x * x * x / 6)%Q.

(** Membership of a point in the XY rectangle spanned by two corners. *)
Definition in_rectangle (lo hi v : vertex) : Prop :=
  (vx lo <= vx v <= vx hi)%Q /\ (vy lo <= vy v <= vy hi)%Q.

(* ================================================================ *)
(** ** NumPy facts *)

Lemma ltb_lt x y : Np.ltb x y = true <-> (x < y)%Q.
Proof.
  unfold Np.ltb. rewrite Qlt_alt. destruct (x ?= y)%Q; split; congruence.
Qed.

Lemma leb_le x y : Np.leb x y = true <-> (x <= y)%Q.
Proof.
  unfold Np.leb. rewrite Qle_alt. destruct (x ?= y)%Q; split; congruence.
Qed.

Lemma foldl_Qmin_le l : forall x y, y ∈ x :: l -> (foldl Qmin x l <= y)%Q.
Proof.
  induction l as [|a l IH]; intros x y Hy; simpl.
  - apply list_elem_of_singleton in Hy. subst. apply Qle_refl.
  - apply elem_of_cons in Hy as [->|Hy].
    + eapply Qle_trans; [apply IH; left|apply Q.le_min_l].
    + apply elem_of_cons in Hy as [->|Hy].
      * eapply Qle_trans; [apply IH; left|apply Q.le_min_r].
      * apply IH. by right.
Qed.

Lemma foldl_Qmin_elem l : forall x, foldl Qmin x l ∈ x :: l.
Proof.
  induction l as [|a l IH]; intros x; simpl; [left|].
  specialize (IH (Qmin x a)).
  apply elem_of_cons in IH as [->|IH].
  - unfold Qmin, GenericMinMax.gmin.
    destruct (x ?= a)%Q; [left|left|right; left].
  - by do 2 right.
Qed.

Lemma foldl_Qmax_ge l : forall x y, y ∈ x :: l -> (y <= foldl Qmax x l)%Q.
Proof.
  induction l as [|a l IH]; intros x y Hy; simpl.
  - apply list_elem_of_singleton in Hy. subst. apply Qle_refl.
  - apply elem_of_cons in Hy as [->|Hy].
    + eapply Qle_trans; [apply Q.le_max_l|apply IH; left].
    + apply elem_of_cons in Hy as [->|Hy].
      * eapply Qle_trans; [apply Q.le_max_r|apply IH; left].
      * apply IH. by right.
Qed.

Lemma min_Ok_le l z y : Np.min l = Ok z -> y ∈ l -> (z <= y)%Q.
Proof.
  destruct l as [|x l]; simpl; [done|]. intros [= <-]. apply foldl_Qmin_le.
Qed.

Lemma min_Ok_elem l z : Np.min l = Ok z -> z ∈ l.
Proof.
  destruct l as [|x l]; simpl; [done|]. intros [= <-]. apply foldl_Qmin_elem.
Qed.

Lemma max_Ok_ge l z y : Np.max l = Ok z -> y ∈ l -> (y <= z)%Q.
Proof.
  destruct l as [|x l]; simpl; [done|]. intros [= <-]. apply foldl_Qmax_ge.
Qed.

Lemma min_Ok_iff l : l ≠ [] <-> exists z, Np.min l = Ok z.
Proof.
  destruct l; simpl; split; try done; eauto. by intros [? ?].
Qed.

Lemma elem_of_where_ mask i : i ∈ Np.where_ mask <-> mask !! i = Some true.
Proof.
  unfold Np.where_. rewrite list_elem_of_filter, elem_of_seq. split.
  - intros [H _]. destruct (mask !! i) as [[]|]; simpl in H; congruence.
  - intros H. split; [by rewrite H|].
    apply lookup_lt_Some in H. lia.
Qed.

Lemma elem_of_arange start stop step x :
  (0 < step)%Q -> x ∈ Np.arange start stop step ->
  exists i : nat, x = (start + inject_Z (Z.of_nat i) * step)%Q
                  /\ (start <= x)%Q /\ (x < stop)%Q.
Proof.
  intros Hstep Hx. unfold Np.arange in Hx.
  apply list_elem_of_fmap in Hx as (i & -> & Hi).
  apply elem_of_seq in Hi. exists i. split; [done|].
  set (q := ((stop - start) / step)%Q) in *.
  assert (Hq : (inject_Z (Z.of_nat i) < q)%Q).
  { eapply Qle_lt_trans; [|apply (Qceiling_lt q)].
    rewrite <- Zle_Qle. lia. }
  assert (H0 : (0 <= inject_Z (Z.of_nat i))%Q).
  { change 0%Q with (inject_Z 0). rewrite <- Zle_Qle. lia. }
  split.
  - rewrite <- (Qplus_0_r start) at 1. apply Qplus_le_r.
    apply Qmult_le_0_compat; [done|by apply Qlt_le_weak].
  - apply (Qmult_lt_r _ _ step) in Hq; [|done].
    unfold q in Hq.
    assert (Heq : ((stop - start) / step * step == stop - start)%Q).
    { field. intros E. rewrite E in Hstep. by apply Qlt_irrefl in Hstep. }
    rewrite Heq in Hq.
    apply (Qplus_lt_r _ _ start) in Hq.
    eapply Qlt_le_trans; [apply Hq|]. ring_simplify. apply Qle_refl.
Qed.

(* ================================================================ *)
(** ** The back-plane masks (C3) *)

Lemma back_surface_mask_spec vs z i :
  i ∈ Np.where_ (back_surface_mask vs z) <->
  exists v, vs !! i = Some v /\ (Qabs (vz v - z) < 1 # 2)%Q.
Proof.
  rewrite elem_of_where_. unfold back_surface_mask.
  rewrite list_lookup_fmap. destruct (vs !! i) as [v|]; simpl.
  - split.
    + intros [= H]. apply ltb_lt in H. eauto.
    + intros (? & [= <-] & H). f_equal. by apply ltb_lt.
  - split; [done|]. by intros (? & ? & _).
Qed.

Lemma fill_back_vertices_mask_spec vs z i :
  i ∈ Np.where_ (fill_back_vertices_mask vs z) <->
  exists v, vs !! i = Some v /\ (Qabs (vz v - z) < z + (1 # 2))%Q.
Proof.
  rewrite elem_of_where_. unfold fill_back_vertices_mask.
  rewrite list_lookup_fmap. destruct (vs !! i) as [v|]; simpl.
  - split.
    + intros [= H]. apply ltb_lt in H. eauto.
    + intros (? & [= <-] & H). f_equal. by apply ltb_lt.
  - split; [done|]. by intros (? & ? & _).
Qed.

(** C3 (as the code behaves): on two plates at heights 10 and 15 the
    minimum Z is 10; [fill_battery_gap] selects all six vertices,
    those at height 15 included, because it compares the distance to
    the back with [z_min + 0.5]; [add_magsafe_recess] selects the
    three vertices within 0.5 of the back.  On a triangle at height
    -1 [fill_battery_gap] selects no vertex at all. *)
Theorem fill_back_mask_depends_on_height :
  z_min_of (vertices raised_plates) = Ok 10%Q
  /\ Np.where_ (fill_back_vertices_mask (vertices raised_plates) 10)
     = [0; 1; 2; 3; 4; 5]
  /\ Np.where_ (back_surface_mask (vertices raised_plates) 10) = [0; 1; 2]
  /\ z_min_of (vertices sunk_triangle) = Ok (-1)%Q
  /\ Np.where_ (fill_back_vertices_mask (vertices sunk_triangle) (-1)) = []
  /\ find_back_plate sunk_triangle = Ok None.
Proof. repeat split; reflexivity. Qed.

(* ================================================================ *)
(** ** The footprint of the fill (C4) *)

Lemma elem_of_grid_vertices x0 x1 y0 y1 z v :
  v ∈ grid_vertices x0 x1 y0 y1 z ->
  (x0 <= vx v)%Q /\ (vx v < x1)%Q /\ (y0 <= vy v)%Q /\ (vy v < y1)%Q
  /\ vz v = z
  /\ exists i j : nat,
       vx v = (x0 + inject_Z (Z.of_nat i) * 2)%Q
       /\ vy v = (y0 + inject_Z (Z.of_nat j) * 2)%Q.
Proof.
  unfold grid_vertices. intros Hv.
  apply list_elem_of_bind in Hv as (x & Hv & Hx).
  apply list_elem_of_bind in Hv as (y & Hv & Hy).
  apply elem_of_arange in Hx as (i & Hi & ? & ?); [|reflexivity].
  apply elem_of_arange in Hy as (j & Hj & ? & ?); [|reflexivity].
  destruct (_ && _); [|by apply elem_of_nil in Hv].
  apply list_elem_of_singleton in Hv as ->. simpl.
  repeat split; try done. exists i, j. by split.
Qed.

Lemma find_back_plate_Some m bp :
  find_back_plate m = Ok (Some bp) ->
  exists z,
    z_min_of (vertices m) = Ok z /\ plate_z bp = z
    /\ back_verts bp = Np.select (fill_back_vertices_mask (vertices m) z) (vertices m)
    /\ Np.min (map vx (back_verts bp)) = Ok (x_min bp)
    /\ Np.max (map vx (back_verts bp)) = Ok (x_max bp)
    /\ Np.min (map vy (back_verts bp)) = Ok (y_min bp)
    /\ Np.max (map vy (back_verts bp)) = Ok (y_max bp).
Proof.
  unfold find_back_plate. intros H.
  destruct (z_min_of (vertices m)) as [z|]; simpl in H; [|done].
  exists z. split; [done|].
  destruct (_ =? 0); [done|].
  destruct (Np.min (map vx _)) as [x0|] eqn:Hx0; simpl in H; [|done].
  destruct (Np.min (map vy _)) as [y0|] eqn:Hy0; simpl in H; [|done].
  destruct (Np.max (map vx _)) as [x1|] eqn:Hx1; simpl in H; [|done].
  destruct (Np.max (map vy _)) as [y1|] eqn:Hy1; simpl in H; [|done].
  injection H as <-. simpl. by repeat split.
Qed.

(** C4 (amended): the rectangle that [fill_battery_gap] fills is the
    whole XY bounding box of the selected back vertices, not a 60%
    part of it: every grid vertex lies in
    [x_min, x_max) x [y_min, y_max) of that box, on the 2 mm grid
    starting at its lower corner, at the height of the back plane. *)
Theorem fill_grid_in_back_bounding_box m bp v :
  find_back_plate m = Ok (Some bp) ->
  v ∈ new_vertices bp ->
  Np.min (map vx (back_verts bp)) = Ok (x_min bp)
  /\ Np.max (map vx (back_verts bp)) = Ok (x_max bp)
  /\ Np.min (map vy (back_verts bp)) = Ok (y_min bp)
  /\ Np.max (map vy (back_verts bp)) = Ok (y_max bp)
  /\ (x_min bp <= vx v)%Q /\ (vx v < x_max bp)%Q
  /\ (y_min bp <= vy v)%Q /\ (vy v < y_max bp)%Q
  /\ vz v = plate_z bp
  /\ exists i j : nat,
       vx v = (x_min bp + inject_Z (Z.of_nat i) * 2)%Q
       /\ vy v = (y_min bp + inject_Z (Z.of_nat j) * 2)%Q.
Proof.
  intros Hbp Hv.
  apply find_back_plate_Some in Hbp as (z & _ & _ & _ & ? & ? & ? & ?).
  apply elem_of_grid_vertices in Hv as (? & ? & ? & ? & ? & ?).
  by repeat split.
Qed.

(* ================================================================ *)
(** ** Too few points to triangulate (C8) *)

(** C8: when fewer than four unique points remain, [Delaunay] is not
    called, the arrays handed to the [Trimesh] constructor are the
    input arrays, and the function goes on to the repair of that
    mesh. *)
Theorem fill_skips_triangulation_below_four_points m bp :
  find_back_plate m = Ok (Some bp) ->
  length (unique_points bp) < 4 ->
  fill_arrays m = Ok (Some m)
  /\ fill_battery_gap m = Repair.repair m.
Proof.
  intros Hbp Hlen.
  assert (Harr : fill_arrays m = Ok (Some m)).
  { unfold fill_arrays. rewrite Hbp. simpl.
    replace (3 <? length (unique_points bp)) with false
      by (symmetry; apply Nat.ltb_ge; lia).
    destruct m. by destruct (0 <? _). }
  split; [done|]. unfold fill_battery_gap. by rewrite Harr.
Qed.

(* ================================================================ *)
(** ** The displacement of the ring band (C2) *)





Lemma length_bind_const {A B} (f : A -> list B) k l :
  (forall x, length (f x) = k) -> length (l ≫= f) = length l * k.
Proof.
  intros Hf. induction l as [|x l IH]; [done|].
  rewrite bind_cons, length_app, Hf, IH. simpl. lia.
Qed.

Lemma length_wall_vertices cx cy r z d l :
  length (wall_vertices np_cos np_sin cx cy r z d l) = length l * 2.
Proof. by apply length_bind_const. Qed.

Lemma length_wall_faces off : length (wall_faces off) = 256.
Proof. unfold wall_faces. by rewrite (length_bind_const _ 4). Qed.

Lemma length_displace mask d vs : length (displace mask d vs) = length vs.
Proof. apply length_imap. Qed.

Lemma recess_arrays_Ok m R r d pos m' :
  recess_arrays m R r d pos = Ok m' ->
  exists cx cy z,
    recess_center m pos = Ok (cx, cy)
    /\ z_min_of (vertices m) = Ok z
    /\ vertices m'
       = displace (ring_area_mask cx cy R r z (vertices m)) d (vertices m)
         ++ (wall_vertices np_cos np_sin cx cy R z d angles
             ++ wall_vertices np_cos np_sin cx cy r z d angles)
    /\ faces m' = faces m ++ wall_faces (length (vertices m)).
Proof.
  unfold recess_arrays, bind. intros H.
  destruct (recess_center m pos) as [[cx cy]|]; [|done].
  destruct (z_min_of (vertices m)) as [z|]; [|done].
  exists cx, cy, z. do 2 (split; [done|]).
  cbv beta iota zeta in H.
  rewrite length_app, !length_wall_vertices, length_wall_faces,
    length_displace in H.
  change (0 <? length angles * 2 + length angles * 2) with true in H.
  change (0 <? 256) with true in H.
  by injection H as <-.
Qed.


(* ================================================================ *)
(** ** The walls of the recess (C5) *)

Lemma angles_in_turn :
  Forall (fun a => (0 <= a)%Q /\ (a < 2 * Np.pi)%Q) angles.
Proof.
  apply Forall_forall. intros a Ha.
  unfold angles, Np.linspace in Ha.
  apply list_elem_of_fmap in Ha as (i & -> & Hi).
  apply elem_of_seq in Hi.
  assert (H0 : (0 <= inject_Z (Z.of_nat i))%Q).
  { change 0%Q with (inject_Z 0). rewrite <- Zle_Qle. lia. }
  assert (H1 : (inject_Z (Z.of_nat i) < 64)%Q).
  { change 64%Q with (inject_Z 64). rewrite <- Zlt_Qlt.
    unfold num_segments in Hi. lia. }
  change (inject_Z (Z.of_nat num_segments)) with 64%Q.
  revert H0 H1. generalize (inject_Z (Z.of_nat i)). intros x Hx0 Hx1.
  cbv beta zeta. set (step := ((2 * Np.pi - 0) / 64)%Q).
  assert (Hstep : (0 < step)%Q) by reflexivity.
  assert (Hturn : (64 * step == 2 * Np.pi)%Q) by reflexivity.
  rewrite Qplus_0_l. split.
  - apply Qmult_le_0_compat; [done|by apply Qlt_le_weak].
  - rewrite <- Hturn. by apply Qmult_lt_r.
Qed.

Ltac face_list_eq :=
  repeat match goal with
    | |- (_, _) = (_, _) => f_equal
    | |- _ :: _ = _ :: _ => f_equal
    end; try lia.

Lemma outer_wall_faces_shift off i :
  outer_wall_faces off i = map (shift_face off) (outer_wall_faces 0 i).
Proof.
  unfold outer_wall_faces, shift_face.
  generalize ((i + 1) mod num_segments). intros j.
  cbn [map fmap list_fmap]. face_list_eq.
Qed.

Lemma inner_wall_faces_shift off i :
  inner_wall_faces off i = map (shift_face off) (inner_wall_faces 0 i).
Proof.
  unfold inner_wall_faces, shift_face.
  generalize ((i + 1) mod num_segments). intros j.
  cbn [map fmap list_fmap]. face_list_eq.
Qed.

Lemma outer_wall_shift off : outer_wall off = map (shift_face off) (outer_wall 0).
Proof.
  unfold outer_wall. induction (seq 0 num_segments) as [|i l IH]; [done|].
  by rewrite !bind_cons, fmap_app, outer_wall_faces_shift, IH.
Qed.

Lemma inner_wall_shift off : inner_wall off = map (shift_face off) (inner_wall 0).
Proof.
  unfold inner_wall. induction (seq 0 num_segments) as [|i l IH]; [done|].
  by rewrite !bind_cons, fmap_app, inner_wall_faces_shift, IH.
Qed.

Lemma eqb_shift off a u : (off + a =? off + u) = (a =? u).
Proof.
  destruct (Nat.eqb_spec a u), (Nat.eqb_spec (off + a) (off + u)); lia || done.
Qed.

Lemma on_edge_shift off u v f :
  on_edge (off + u) (off + v) (shift_face off f) = on_edge u v f.
Proof.
  destruct f as [[a b] c]. unfold on_edge, shift_face, is_edge.
  by rewrite !eqb_shift.
Qed.

Lemma edge_count_shift off u v fs :
  edge_count (off + u) (off + v) (map (shift_face off) fs) = edge_count u v fs.
Proof.
  unfold edge_count. induction fs as [|f fs IH]; [done|].
  cbn [map]. rewrite !filter_cons, on_edge_shift.
  destruct (decide _); cbn [length]; by rewrite IH.
Qed.

Lemma wall_faces_split off :
  wall_faces off ≡ₚ outer_wall off ++ inner_wall off.
Proof.
  unfold wall_faces, outer_wall, inner_wall.
  induction (seq 0 num_segments) as [|i l IH]; [done|].
  rewrite !bind_cons, IH.
  rewrite <- !(assoc_L (++)). f_equiv.
  rewrite !(assoc_L (++)). f_equiv.
  apply Permutation_app_comm.
Qed.

(** C5: the circle is sampled at 64 angles [i * (2 pi / 64)], all in
    [0, 2 pi); the outer and the inner wall have 128 faces each, and
    together they are the 256 new faces; in every segment the inner
    faces are the outer faces moved to the inner ring with the
    opposite winding; and in each wall the edge between the bottom
    and the top vertex of every sample angle belongs to exactly two
    faces, the seam closing the ring included. *)
Theorem wall_topology vertex_offset :
  angles
    = map (fun i : nat =>
             (0 + inject_Z (Z.of_nat i) * ((2 * Np.pi - 0) / 64))%Q)
          (seq 0 64)
  /\ length angles = 64
  /\ Forall (fun a => (0 <= a)%Q /\ (a < 2 * Np.pi)%Q) angles
  /\ length (outer_wall vertex_offset) = 128
  /\ length (inner_wall vertex_offset) = 128
  /\ wall_faces vertex_offset
     ≡ₚ outer_wall vertex_offset ++ inner_wall vertex_offset
  /\ Forall (fun i =>
               Forall2 reversed
                 (map (shift_face (2 * num_segments))
                      (outer_wall_faces vertex_offset i))
                 (reverse (inner_wall_faces vertex_offset i)))
            (seq 0 num_segments)
  /\ Forall (fun i =>
               edge_count (vertex_offset + 2 * i) (vertex_offset + (2 * i + 1))
                          (outer_wall vertex_offset) = 2
               /\ edge_count (vertex_offset + (2 * num_segments + 2 * i))
                             (vertex_offset + (2 * num_segments + 2 * i + 1))
                             (inner_wall vertex_offset) = 2)
            (seq 0 num_segments).
Proof.
  split; [reflexivity|]. split; [reflexivity|].
  split; [apply angles_in_turn|].
  split; [unfold outer_wall; by rewrite (length_bind_const _ 2)|].
  split; [unfold inner_wall; by rewrite (length_bind_const _ 2)|].
  split; [apply wall_faces_split|].
  split.
  - apply Forall_forall. intros i _.
    unfold outer_wall_faces, inner_wall_faces, shift_face.
    generalize ((i + 1) mod num_segments). intros j.
    cbn [map fmap list_fmap reverse rev_append].
    constructor; [|constructor; [|constructor]];
      unfold reversed, same_winding, flip, rotate; right; right;
      face_list_eq.
  - rewrite outer_wall_shift, inner_wall_shift.
    eapply Forall_impl.
    + instantiate (1 := fun i =>
        edge_count (2 * i) (2 * i + 1) (outer_wall 0) = 2
        /\ edge_count (2 * num_segments + 2 * i)
                      (2 * num_segments + 2 * i + 1) (inner_wall 0) = 2).
      apply (bool_decide_unpack _). by vm_compute.
    + intros i [Ho Hi]. by rewrite !edge_count_shift.
Qed.

(* ================================================================ *)
(** ** The pipeline without stages (C1) *)

Lemma Forall2_imap {A B} (P : A -> B -> Prop) (g : nat -> A -> B) l :
  (forall i x, P x (g i x)) -> Forall2 P l (imap g l).
Proof.
  revert g. induction l as [|x l IH]; intros g Hg; [constructor|].
  constructor; [apply Hg|]. apply IH. intros i y. apply Hg.
Qed.

Lemma fix_normals_vertices m : vertices (fix_normals m) = vertices m.
Proof. done. Qed.

Lemma fix_normals_faces m :
  Forall2 (fun f g => g = f \/ g = flip f) (faces m) (faces (fix_normals m)).
Proof.
  apply Forall2_imap. intros i f. destruct (default _ _); auto.
Qed.

Lemma fix_normals_fixed m :
  Forall (fun b => b = false) (winding_mask m) -> fix_normals m = m.
Proof.
  intros Hmask. destruct m as [vs fs]. unfold fix_normals. simpl. f_equal.
  rewrite <- (list_fmap_id fs) at 2. rewrite <- (imap_const Datatypes.id fs).
  apply imap_ext. intros i f _.
  destruct (winding_mask _ !! i) as [b|] eqn:Hb; simpl; [|done].
  apply list_elem_of_lookup_2 in Hb.
  rewrite Forall_forall in Hmask. by rewrite (Hmask _ Hb).
Qed.

Lemma fix_normals_in_range m : faces_in_range m -> faces_in_range (fix_normals m).
Proof.
  unfold faces_in_range. rewrite fix_normals_vertices. intros Hm.
  pose proof (fix_normals_faces m) as HF.
  induction HF as [|f g fs gs Hfg HF IH]; [constructor|].
  apply Forall_cons in Hm as [Hf Hm].
  constructor; [|by apply IH].
  destruct Hfg as [->| ->]; [done|].
  destruct f as [[a b] c]. unfold face_in_range, flip in *. simpl in *.
  rewrite !Forall_cons in Hf. rewrite !Forall_cons. tauto.
Qed.

(** C1 (amended): with both flags false and a mesh that has a vertex,
    [apply_modifications] returns the same vertices and the same
    number of faces, and each face is the input face or that face with
    its winding reversed by the final [fix_normals]; the result is the
    input mesh, normals included, whenever [fix_normals] selects no
    face. *)
Theorem pipeline_without_stages m position :
  vertices m <> [] ->
  exists m', apply_modifications m false false position = Ok m'
    /\ vertices m' = vertices m
    /\ length (faces m') = length (faces m)
    /\ Forall2 (fun f g => g = f \/ g = flip f) (faces m) (faces m')
    /\ (Forall (fun b => b = false) (winding_mask m) ->
        m' = m /\ face_normals m' = face_normals m).
Proof.
  intros Hvs. exists (fix_normals m).
  unfold apply_modifications, bind.
  rewrite fix_normals_vertices.
  assert (Hz : exists z, z_min_of (vertices m) = Ok z).
  { apply min_Ok_iff. by destruct (vertices m). }
  destruct Hz as [z ->].
  split; [done|]. split; [done|].
  pose proof (fix_normals_faces m) as HF.
  split; [symmetry; by eapply Forall2_length|].
  split; [done|].
  intros Hmask. by rewrite fix_normals_fixed.
Qed.

(* ================================================================ *)
(** ** Facts about the repair operations *)

Lemma filter_all {A} (P : A -> Prop) `{forall x, Decision (P x)} l :
  Forall P l -> filter P l = l.
Proof.
  induction 1 as [|x l Hx _ IH]; [done|].
  rewrite filter_cons. destruct (decide (P x)); [|done]. by f_equal.
Qed.

Lemma NoDup_fmap_filter {A K} (key : A -> K) (P : A -> Prop)
    `{forall x, Decision (P x)} l :
  NoDup (key <$> l) -> NoDup (key <$> filter P l).
Proof.
  induction l as [|x l IH]; [done|].
  rewrite fmap_cons, NoDup_cons. intros [Hx Hl].
  rewrite filter_cons. destruct (decide (P x)); [|by apply IH].
  rewrite fmap_cons. constructor; [|by apply IH].
  intros Hin. apply Hx.
  apply list_elem_of_fmap in Hin as (y & -> & Hy).
  apply list_elem_of_filter in Hy as [_ Hy]. by apply list_elem_of_fmap_2.
Qed.

Section dedup_facts.
Context {A K : Type} `{EqDecision K} (key : A -> K).

Lemma dedup_by_sublist l : sublist (Repair.dedup_by key l) l.
Proof.
  induction l as [|x l IH]; simpl; [constructor|].
  constructor. etrans; [apply sublist_filter|done].
Qed.

Lemma elem_of_dedup_by l x : x ∈ Repair.dedup_by key l -> x ∈ l.
Proof. intros Hx. eapply elem_of_sublist; [done|apply dedup_by_sublist]. Qed.

Lemma dedup_by_covers l x :
  x ∈ l -> exists y, y ∈ Repair.dedup_by key l /\ key y = key x.
Proof.
  induction l as [|a l IH]; intros Hx; [by apply elem_of_nil in Hx|].
  simpl. apply elem_of_cons in Hx as [->|Hx].
  - exists a. split; [left|done].
  - destruct (IH Hx) as (y & Hy & Hk).
    destruct (decide (key y = key a)) as [E|E].
    + exists a. split; [left|congruence].
    + exists y. split; [|done]. right. by apply list_elem_of_filter.
Qed.

Lemma NoDup_dedup_by_keys l : NoDup (key <$> Repair.dedup_by key l).
Proof.
  induction l as [|a l IH]; cbn [Repair.dedup_by]; [constructor|].
  rewrite fmap_cons. constructor.
  - intros Hin. apply list_elem_of_fmap in Hin as (y & Hk & Hy).
    apply list_elem_of_filter in Hy as [Hne _]. congruence.
  - by apply NoDup_fmap_filter.
Qed.

Lemma dedup_by_NoDup l : NoDup (key <$> l) -> Repair.dedup_by key l = l.
Proof.
  induction l as [|a l IH]; cbn [Repair.dedup_by]; [done|].
  rewrite fmap_cons, NoDup_cons. intros [Ha Hl].
  rewrite IH by done. f_equal.
  apply filter_all, Forall_forall. intros y Hy E.
  apply Ha. rewrite <- E. by apply list_elem_of_fmap_2.
Qed.

(** The first element with a given key is the same before and after
    [dedup_by]. *)
Lemma list_find_filter_weaken (P Q : A -> Prop)
    `{forall x, Decision (P x)} `{forall x, Decision (Q x)} l :
  (forall x, P x -> Q x) ->
  snd <$> list_find P (filter Q l) = snd <$> list_find P l.
Proof.
  intros HPQ. induction l as [|x l IH]; [done|].
  rewrite filter_cons. simpl.
  destruct (decide (Q x)) as [HQ|HQ]; simpl.
  - destruct (decide (P x)); [done|].
    destruct (list_find P (filter Q l)) as [[]|],
             (list_find P l) as [[]|]; simpl in *; congruence.
  - destruct (decide (P x)) as [HP|HP]; [by apply HPQ in HP|].
    rewrite IH. by destruct (list_find P l) as [[]|].
Qed.

Lemma list_find_dedup_by k l :
  snd <$> list_find (fun y => key y = k) (Repair.dedup_by key l)
  = snd <$> list_find (fun y => key y = k) l.
Proof.
  induction l as [|a l IH]; [done|]. simpl.
  destruct (decide (key a = k)) as [E|E]; [done|].
  transitivity (snd <$> list_find (fun y => key y = k) (Repair.dedup_by key l)).
  - pose proof (list_find_filter_weaken (fun y => key y = k)
                  (fun y => key y ≠ key a) (Repair.dedup_by key l)) as Hw.
    destruct (list_find _ (filter _ _)) as [[]|],
             (list_find _ (Repair.dedup_by key l)) as [[]|] eqn:E2;
      simpl in *; apply Hw; congruence.
  - rewrite IH. by destruct (list_find _ l) as [[]|].
Qed.

Lemma index_of_Some k l j :
  Repair.index_of key k l = Some j ->
  exists y, l !! j = Some y /\ key y = k
            /\ snd <$> list_find (fun y => key y = k) l = Some y.
Proof.
  unfold Repair.index_of.
  destruct (list_find _ l) as [[i y]|] eqn:Hf; simpl; [|done].
  intros [= ->]. apply list_find_Some in Hf as (? & ? & _). eauto.
Qed.

Lemma index_of_elem l x :
  x ∈ l -> is_Some (Repair.index_of key (key x) l).
Proof.
  intros Hx. unfold Repair.index_of.
  destruct (list_find_elem_of (fun y => key y = key x) l x Hx eq_refl)
    as [[j y] ->]. by eexists.
Qed.

Lemma index_of_NoDup l i x :
  NoDup (key <$> l) -> l !! i = Some x ->
  Repair.index_of key (key x) l = Some i.
Proof.
  intros Hnd Hi.
  destruct (index_of_elem l x) as [j Hj]; [by eapply list_elem_of_lookup_2|].
  rewrite Hj. f_equal.
  apply index_of_Some in Hj as (y & Hy & Hk & _).
  eapply NoDup_lookup; [exact Hnd| |].
  - by rewrite list_lookup_fmap, Hy.
  - rewrite list_lookup_fmap, Hi. simpl. by rewrite Hk.
Qed.
End dedup_facts.

Lemma select_lookup_rank {A} mask (vs : list A) i :
  mask !! i = Some true ->
  Np.select mask vs !! Repair.rank mask i = vs !! i.
Proof.
  revert vs i. induction mask as [|b mask IH]; intros vs i Hi; [done|].
  destruct vs as [|x vs]; [by destruct i|].
  destruct i as [|i]; simpl in *.
  - by injection Hi as ->.
  - destruct b; simpl; by apply IH.
Qed.

Lemma select_lookup_inv {A} mask (vs : list A) j v :
  Np.select mask vs !! j = Some v ->
  exists i, mask !! i = Some true /\ vs !! i = Some v /\ Repair.rank mask i = j.
Proof.
  revert vs j. induction mask as [|b mask IH]; intros vs j Hj; [done|].
  destruct vs as [|x vs]; [done|]. simpl in Hj.
  destruct b.
  - destruct j as [|j]; simpl in Hj.
    + exists 0. by injection Hj as ->.
    + destruct (IH _ _ Hj) as (i & ? & ? & ?). exists (S i). simpl. auto.
  - destruct (IH _ _ Hj) as (i & ? & ? & ?). exists (S i). simpl. auto.
Qed.

Lemma select_sublist {A} mask (vs : list A) : sublist (Np.select mask vs) vs.
Proof.
  revert vs. induction mask as [|b mask IH]; intros [|x vs]; simpl;
    try apply sublist_nil_l.
  destruct b; constructor; apply IH.
Qed.

Lemma rank_le mask i j : i <= j -> Repair.rank mask i <= Repair.rank mask j.
Proof.
  revert i j. induction mask as [|b mask IH]; intros i j Hij; [done|].
  destruct i as [|i]; simpl; [lia|].
  destruct j as [|j]; [lia|]. simpl.
  specialize (IH i j). lia.
Qed.

Lemma rank_lt mask i j :
  mask !! i = Some true -> i < j -> Repair.rank mask i < Repair.rank mask j.
Proof.
  revert i j. induction mask as [|b mask IH]; intros i j Hi Hij; [done|].
  destruct j as [|j]; [lia|].
  destruct i as [|i]; simpl in *.
  - injection Hi as ->. lia.
  - specialize (IH i j Hi). lia.
Qed.

Lemma rank_inj mask i j :
  mask !! i = Some true -> mask !! j = Some true ->
  Repair.rank mask i = Repair.rank mask j -> i = j.
Proof.
  intros Hi Hj E.
  destruct (Nat.lt_trichotomy i j) as [H|[H|H]]; [|done|].
  - apply (rank_lt mask) in H; [lia|done].
  - apply (rank_lt mask) in H; [lia|done].
Qed.

Lemma rank_leb mask i j :
  mask !! i = Some true -> mask !! j = Some true ->
  (Repair.rank mask i <=? Repair.rank mask j) = (i <=? j).
Proof.
  intros Hi Hj.
  destruct (Nat.leb_spec i j) as [H|H].
  - apply Nat.leb_le. by apply rank_le.
  - apply Nat.leb_gt. by apply rank_lt.
Qed.

Lemma rank_all_true mask i :
  Forall (fun b => b = true) mask -> i <= length mask -> Repair.rank mask i = i.
Proof.
  intros Hm. revert i. induction Hm as [|b mask -> _ IH]; intros i Hi.
  - simpl in Hi. by replace i with 0 by lia.
  - destruct i as [|i]; [done|]. simpl in *. rewrite IH; lia.
Qed.

Lemma select_all_true {A} mask (vs : list A) :
  Forall (fun b => b = true) mask -> length mask = length vs ->
  Np.select mask vs = vs.
Proof.
  intros Hm. revert vs. induction Hm as [|b mask -> _ IH]; intros [|x vs] Hl;
    try done.
  simpl. f_equal. apply IH. simpl in Hl. lia.
Qed.

Lemma referenced_mask_lookup m i :
  referenced_mask m !! i = Some true
  <-> i < length (vertices m) /\ i ∈ used (faces m).
Proof.
  unfold referenced_mask. rewrite list_lookup_fmap. split.
  - intros H. destruct (seq _ _ !! i) as [j|] eqn:Hj; [|done].
    apply lookup_seq in Hj as [-> ?]. simpl in H.
    injection H as H. apply bool_decide_eq_true in H. by split.
  - intros [Hi Hu]. rewrite lookup_seq_lt by done. simpl.
    f_equal. by apply bool_decide_eq_true.
Qed.

Lemma length_referenced_mask m :
  length (referenced_mask m) = length (vertices m).
Proof. unfold referenced_mask. by rewrite length_map, length_seq. Qed.

Lemma elem_of_used fs i :
  i ∈ used fs <-> exists f, f ∈ fs /\ i ∈ face_indices f.
Proof.
  unfold used. rewrite list_elem_of_bind. split; intros (f & ? & ?); eauto.
Qed.

Lemma map_result_Ok {A B} (g : A -> result B) l l' :
  Repair.map_result g l = Ok l' <-> Forall2 (fun x y => g x = Ok y) l l'.
Proof.
  revert l'. induction l as [|x l IH]; intros l'; simpl.
  - split; [intros [= <-]; constructor|by inversion 1].
  - unfold bind. split.
    + destruct (g x) as [y|] eqn:Hy; [|done].
      destruct (Repair.map_result g l) as [ys|]; [|done].
      intros [= <-]. constructor; [done|]. by apply IH.
    + inversion 1 as [|? y ? ys Hy Hys]; subst. rewrite Hy.
      apply IH in Hys. by rewrite Hys.
Qed.

Lemma merged_index_Ok vs i j :
  Repair.merged_index vs (Repair.dedup_by Repair.vertex_key vs) i = Ok j ->
  exists v w,
    vs !! i = Some v
    /\ Repair.dedup_by Repair.vertex_key vs !! j = Some w
    /\ Repair.vertex_key w = Repair.vertex_key v.
Proof.
  unfold Repair.merged_index.
  destruct (vs !! i) as [v|]; [|done].
  destruct (Repair.index_of _ _ _) as [j'|] eqn:Hj; [|done].
  intros [= ->]. apply index_of_Some in Hj as (w & ? & ? & _). eauto.
Qed.

Lemma merged_index_total vs i :
  i < length vs ->
  exists j, Repair.merged_index vs (Repair.dedup_by Repair.vertex_key vs) i = Ok j.
Proof.
  intros Hi. apply lookup_lt_is_Some in Hi as [v Hv].
  unfold Repair.merged_index. rewrite Hv.
  destruct (dedup_by_covers Repair.vertex_key vs v) as (y & Hy & Hk);
    [by eapply list_elem_of_lookup_2|].
  destruct (index_of_elem Repair.vertex_key _ _ Hy) as [j Hj].
  rewrite Hk in Hj. rewrite Hj. eauto.
Qed.

Lemma merged_index_clean vs i :
  NoDup (Repair.vertex_key <$> vs) -> i < length vs ->
  Repair.merged_index vs (Repair.dedup_by Repair.vertex_key vs) i = Ok i.
Proof.
  intros Hnd Hi. apply lookup_lt_is_Some in Hi as [v Hv].
  unfold Repair.merged_index. rewrite Hv, dedup_by_NoDup by done.
  by rewrite (index_of_NoDup _ _ i).
Qed.

Lemma face_in_range_iff n a b c :
  face_in_range n (a, b, c) <-> a < n /\ b < n /\ c < n.
Proof.
  unfold face_in_range. simpl. rewrite !Forall_cons, Forall_nil. tauto.
Qed.

Lemma merged_face_Ok vs f f1 :
  Repair.merged_face vs (Repair.dedup_by Repair.vertex_key vs) f = Ok f1 ->
  face_in_range (length vs) f
  /\ face_in_range (length (Repair.dedup_by Repair.vertex_key vs)) f1.
Proof.
  destruct f as [[a b] c]. unfold Repair.merged_face, bind.
  destruct (Repair.merged_index _ _ a) as [a'|] eqn:Ha; [|done].
  destruct (Repair.merged_index _ _ b) as [b'|] eqn:Hb; [|done].
  destruct (Repair.merged_index _ _ c) as [c'|] eqn:Hc; [|done].
  intros [= <-].
  apply merged_index_Ok in Ha as (? & ? & ?%lookup_lt_Some & ?%lookup_lt_Some & _).
  apply merged_index_Ok in Hb as (? & ? & ?%lookup_lt_Some & ?%lookup_lt_Some & _).
  apply merged_index_Ok in Hc as (? & ? & ?%lookup_lt_Some & ?%lookup_lt_Some & _).
  by rewrite !face_in_range_iff.
Qed.

Lemma merge_vertices_Ok m m1 :
  Repair.merge_vertices m = Ok m1 ->
  vertices m1 = Repair.dedup_by Repair.vertex_key (vertices m)
  /\ Forall2 (fun f f1 =>
                Repair.merged_face (vertices m) (vertices m1) f = Ok f1)
             (faces m) (faces m1).
Proof.
  unfold Repair.merge_vertices, bind.
  destruct (Repair.map_result _ _) as [fs|] eqn:Hfs; [|done].
  intros [= <-]. simpl. split; [done|]. by apply map_result_Ok.
Qed.

Lemma merge_vertices_in_range m m1 :
  Repair.merge_vertices m = Ok m1 -> faces_in_range m /\ faces_in_range m1.
Proof.
  intros H. apply merge_vertices_Ok in H as [Hvs HF].
  unfold faces_in_range. rewrite Hvs in *.
  induction HF as [|f f1 fs fs1 Hf _ [IH1 IH2]]; [by split|].
  apply merged_face_Ok in Hf as [? ?]. split; by constructor.
Qed.

Lemma merge_vertices_total m :
  faces_in_range m -> exists m1, Repair.merge_vertices m = Ok m1.
Proof.
  intros Hm. unfold Repair.merge_vertices, bind.
  assert (exists fs, Repair.map_result
            (Repair.merged_face (vertices m)
               (Repair.dedup_by Repair.vertex_key (vertices m))) (faces m)
          = Ok fs) as [fs ->]; [|eauto].
  unfold faces_in_range in Hm.
  induction Hm as [|[[a b] c] fs Hf _ [fs1 IH]]; [by exists []|].
  apply face_in_range_iff in Hf as (Ha & Hb & Hc).
  destruct (merged_index_total _ _ Ha) as [a' Ha'].
  destruct (merged_index_total _ _ Hb) as [b' Hb'].
  destruct (merged_index_total _ _ Hc) as [c' Hc'].
  exists ((a', b', c') :: fs1). simpl. unfold bind.
  by rewrite Ha', Hb', Hc', IH.
Qed.

Lemma merge_vertices_clean m :
  NoDup (Repair.vertex_key <$> vertices m) -> faces_in_range m ->
  Repair.merge_vertices m = Ok m.
Proof.
  intros Hnd Hm. unfold Repair.merge_vertices, bind.
  assert (Repair.map_result
            (Repair.merged_face (vertices m)
               (Repair.dedup_by Repair.vertex_key (vertices m))) (faces m)
          = Ok (faces m)) as ->.
  { unfold faces_in_range in Hm. apply map_result_Ok.
    induction Hm as [|[[a b] c] fs Hf _ IH]; constructor; [|done].
    apply face_in_range_iff in Hf as (Ha & Hb & Hc).
    unfold Repair.merged_face, bind.
    by rewrite !merged_index_clean. }
  rewrite dedup_by_NoDup by done. by destruct m.
Qed.

Lemma NoDup_fmap_sublist {A K} (key : A -> K) l1 l2 :
  sublist l1 l2 -> NoDup (key <$> l2) -> NoDup (key <$> l1).
Proof.
  induction 1 as [|x l1 l2 Hs IH|x l1 l2 Hs IH]; [done| |].
  - rewrite !fmap_cons, !NoDup_cons. intros [Hx Hl]. split; [|by apply IH].
    intros Hin. apply Hx.
    apply list_elem_of_fmap in Hin as (y & -> & Hy).
    apply list_elem_of_fmap_2. by eapply elem_of_sublist.
  - rewrite fmap_cons, NoDup_cons. intros [_ Hl]. by apply IH.
Qed.

Lemma face_set_indices f i :
  i ∈ face_indices (Repair.face_set f) <-> i ∈ face_indices f.
Proof.
  destruct f as [[a b] c]. unfold Repair.face_set.
  destruct (a <=? b), (b <=? c), (a <=? c); simpl;
    rewrite !elem_of_cons, !elem_of_nil; tauto.
Qed.

Lemma face_set_map_face g f :
  (forall i j, i ∈ face_indices f -> j ∈ face_indices f ->
               (g i <=? g j) = (i <=? j)) ->
  Repair.face_set (map_face g f) = map_face g (Repair.face_set f).
Proof.
  destruct f as [[a b] c]. intros Hg. unfold Repair.face_set, map_face.
  assert (Ha : a ∈ face_indices (a, b, c)) by (simpl; left).
  assert (Hb : b ∈ face_indices (a, b, c)) by (simpl; right; left).
  assert (Hc : c ∈ face_indices (a, b, c)) by (simpl; do 2 right; left).
  rewrite !Hg by done.
  by destruct (a <=? b), (b <=? c), (a <=? c).
Qed.

Lemma map_face_inj_on g f f' :
  (forall i j, i ∈ face_indices f -> j ∈ face_indices f' -> g i = g j -> i = j) ->
  map_face g f = map_face g f' -> f = f'.
Proof.
  destruct f as [[a b] c], f' as [[a' b'] c']. simpl. intros Hg [= Ea Eb Ec].
  rewrite (Hg a a'), (Hg b b'), (Hg c c'); try done;
    rewrite !elem_of_cons; auto.
Qed.

Lemma face_in_range_lookup n f i :
  face_in_range n f -> i ∈ face_indices f -> i < n.
Proof. unfold face_in_range. rewrite Forall_forall. auto. Qed.

(** *** Removing unreferenced vertices *)

Section unreferenced.
Variable m : mesh.
Hypothesis Hrange : faces_in_range m.

Let mask := referenced_mask m.
Let out := Repair.remove_unreferenced_vertices m.

Lemma referenced_of_face f i :
  f ∈ faces m -> i ∈ face_indices f -> mask !! i = Some true.
Proof.
  intros Hf Hi. apply referenced_mask_lookup. split.
  - unfold faces_in_range in Hrange. rewrite Forall_forall in Hrange.
    eapply face_in_range_lookup; eauto.
  - apply elem_of_used; eauto.
Qed.

Lemma unreferenced_corners f :
  f ∈ faces m ->
  corners (vertices out) (map_face (Repair.rank mask) f) = corners (vertices m) f.
Proof.
  intros Hf. destruct f as [[a b] c]. unfold corners, map_face. simpl.
  rewrite !select_lookup_rank; [done|..];
    apply (referenced_of_face _ _ Hf); simpl; rewrite !elem_of_cons; auto.
Qed.

Lemma unreferenced_in_range : faces_in_range out.
Proof.
  unfold faces_in_range, out. simpl. apply Forall_forall.
  intros g Hg. apply list_elem_of_fmap in Hg as (f & -> & Hf).
  pose proof (unreferenced_corners f Hf) as Hc.
  unfold faces_in_range in Hrange. rewrite Forall_forall in Hrange.
  specialize (Hrange f Hf).
  destruct f as [[a b] c].
  apply face_in_range_iff in Hrange as (Ha & Hb & Hc').
  apply lookup_lt_is_Some in Ha as [va Ha].
  apply lookup_lt_is_Some in Hb as [vb Hb].
  apply lookup_lt_is_Some in Hc' as [vc Hc'].
  unfold corners, map_face in Hc. simpl in Hc.
  rewrite Ha, Hb, Hc' in Hc. simpl in Hc.
  destruct (Np.select _ _ !! Repair.rank _ a) eqn:Ea; [|done].
  destruct (Np.select _ _ !! Repair.rank _ b) eqn:Eb; [|done].
  destruct (Np.select _ _ !! Repair.rank _ c) eqn:Ec; [|done].
  apply lookup_lt_Some in Ea, Eb, Ec.
  by apply face_in_range_iff.
Qed.

Lemma unreferenced_degenerate f :
  f ∈ faces m ->
  Repair.degenerate (vertices out) (map_face (Repair.rank mask) f)
  = Repair.degenerate (vertices m) f.
Proof.
  intros Hf. unfold Repair.degenerate at 1.
  pose proof (unreferenced_corners f Hf) as Hc.
  destruct f as [[a b] c]. unfold map_face in *.
  rewrite Hc. unfold Repair.degenerate. f_equal.
  assert (Ha : mask !! a = Some true)
    by (apply (referenced_of_face _ _ Hf); simpl; rewrite !elem_of_cons; auto).
  assert (Hb : mask !! b = Some true)
    by (apply (referenced_of_face _ _ Hf); simpl; rewrite !elem_of_cons; auto).
  assert (Hc' : mask !! c = Some true)
    by (apply (referenced_of_face _ _ Hf); simpl; rewrite !elem_of_cons; auto).
  apply bool_decide_ext. split.
  - intros [E|[E|E]]; apply rank_inj in E; auto.
  - intros [-> | [-> | ->]]; auto.
Qed.

Lemma unreferenced_face_set f :
  f ∈ faces m ->
  Repair.face_set (map_face (Repair.rank mask) f)
  = map_face (Repair.rank mask) (Repair.face_set f).
Proof.
  intros Hf. apply face_set_map_face. intros i j Hi Hj.
  apply rank_leb; by apply (referenced_of_face f).
Qed.

Lemma unreferenced_NoDup_faces :
  NoDup (Repair.face_set <$> faces m) -> NoDup (Repair.face_set <$> faces out).
Proof.
  intros Hnd. unfold out. simpl.
  assert (E : Repair.face_set <$> map (map_face (Repair.rank mask)) (faces m)
              = map_face (Repair.rank mask) <$> (Repair.face_set <$> faces m)).
  { apply list_eq. intros k. rewrite !list_lookup_fmap.
    destruct (faces m !! k) as [f|] eqn:Hk; simpl; [|done].
    f_equal. apply unreferenced_face_set. by eapply list_elem_of_lookup_2. }
  fold mask. rewrite E. apply NoDup_fmap_2_strong; [|done].
  intros s s' Hs Hs' Eq.
  apply list_elem_of_fmap in Hs as (f & -> & Hf).
  apply list_elem_of_fmap in Hs' as (f' & -> & Hf').
  eapply map_face_inj_on; [|exact Eq].
  intros i j Hi Hj. rewrite face_set_indices in Hi, Hj.
  apply rank_inj;
    [by apply (referenced_of_face f)|by apply (referenced_of_face f')].
Qed.

Lemma unreferenced_all_referenced :
  Forall (fun b => b = true) (referenced_mask out).
Proof.
  apply Forall_forall. intros b Hb.
  unfold referenced_mask in Hb.
  apply list_elem_of_fmap in Hb as (j & -> & Hj).
  apply elem_of_seq in Hj as [_ Hj]. simpl in Hj.
  apply bool_decide_eq_true.
  apply lookup_lt_is_Some in Hj as [v Hv].
  apply select_lookup_inv in Hv as (i & Hi & _ & <-).
  apply referenced_mask_lookup in Hi as [_ Hu].
  apply elem_of_used in Hu as (f & Hf & Hif).
  apply elem_of_used. exists (map_face (Repair.rank mask) f). split.
  - unfold out. simpl. by apply list_elem_of_fmap_2.
  - destruct f as [[a b] c]. simpl in *.
    rewrite !elem_of_cons in Hif. rewrite !elem_of_cons.
    destruct Hif as [-> | [-> | [-> | Hif]]]; auto. by apply elem_of_nil in Hif.
Qed.

Lemma unreferenced_repaired :
  NoDup (Repair.vertex_key <$> vertices m) ->
  Forall (fun f => Repair.degenerate (vertices m) f = false) (faces m) ->
  NoDup (Repair.face_set <$> faces m) ->
  repaired out.
Proof.
  intros Hkeys Hdeg Hfs. split; [apply unreferenced_in_range|].
  split.
  { eapply NoDup_fmap_sublist; [|exact Hkeys]. apply select_sublist. }
  split.
  { apply Forall_forall. intros g Hg. unfold out in Hg. simpl in Hg.
    apply list_elem_of_fmap in Hg as (f & -> & Hf).
    rewrite unreferenced_degenerate by done.
    rewrite Forall_forall in Hdeg. by apply Hdeg. }
  split; [by apply unreferenced_NoDup_faces|].
  apply unreferenced_all_referenced.
Qed.
End unreferenced.

(** *** The whole sequence *)

Lemma repair_Ok m m' :
  Repair.repair m = Ok m' <->
  exists m1, Repair.merge_vertices m = Ok m1
    /\ m' = Repair.remove_unreferenced_vertices
              (Repair.remove_duplicate_faces (Repair.remove_degenerate_faces m1)).
Proof.
  unfold Repair.repair, bind. split.
  - destruct (Repair.merge_vertices m) as [m1|]; [|done].
    intros [= <-]. eauto.
  - intros (m1 & -> & ->). done.
Qed.

Lemma remove_degenerate_in_range m :
  faces_in_range m -> faces_in_range (Repair.remove_degenerate_faces m).
Proof.
  unfold faces_in_range. simpl. rewrite !Forall_forall.
  intros Hm f Hf. apply list_elem_of_filter in Hf as [_ Hf]. auto.
Qed.

Lemma remove_duplicate_in_range m :
  faces_in_range m -> faces_in_range (Repair.remove_duplicate_faces m).
Proof.
  unfold faces_in_range. simpl. rewrite !Forall_forall.
  intros Hm f Hf. apply elem_of_dedup_by in Hf. auto.
Qed.

Lemma repair_repaired m m' : Repair.repair m = Ok m' -> repaired m'.
Proof.
  intros H. apply repair_Ok in H as (m1 & Hm1 & ->).
  pose proof (merge_vertices_in_range _ _ Hm1) as [_ Hr1].
  apply merge_vertices_Ok in Hm1 as [Hvs _].
  apply unreferenced_repaired.
  - by apply remove_duplicate_in_range, remove_degenerate_in_range.
  - simpl. rewrite Hvs. apply NoDup_dedup_by_keys.
  - simpl. apply Forall_forall. intros f Hf.
    apply elem_of_dedup_by, list_elem_of_filter in Hf as [Hd _]. done.
  - simpl. apply NoDup_dedup_by_keys.
Qed.

Lemma repair_fixed m : repaired m -> Repair.repair m = Ok m.
Proof.
  intros (Hrange & Hkeys & Hdeg & Hfs & Href).
  apply repair_Ok. exists m. split; [by apply merge_vertices_clean|].
  destruct m as [vs fs]. simpl in *.
  unfold Repair.remove_unreferenced_vertices, Repair.remove_duplicate_faces,
    Repair.remove_degenerate_faces. simpl.
  rewrite (filter_all _ fs) by done.
  rewrite dedup_by_NoDup by done.
  rewrite select_all_true;
    [|done|by rewrite (length_referenced_mask (Trimesh vs fs))].
  f_equal. rewrite <- (list_fmap_id fs) at 1.
  apply Forall_fmap_ext_1, Forall_forall.
  unfold faces_in_range in Hrange. simpl in Hrange.
  rewrite Forall_forall in Hrange. intros [[a b] c] Hf.
  apply Hrange, face_in_range_iff in Hf as (Ha & Hb & Hc).
  pose proof (length_referenced_mask (Trimesh vs fs)) as Hlen. simpl in Hlen.
  unfold map_face. by rewrite !rank_all_true by (done || lia).
Qed.

Lemma repair_total m :
  faces_in_range m <-> exists m', Repair.repair m = Ok m'.
Proof.
  split.
  - intros Hm. destruct (merge_vertices_total m Hm) as [m1 Hm1].
    eexists. apply repair_Ok. eauto.
  - intros (m' & H). apply repair_Ok in H as (m1 & Hm1 & _).
    by apply merge_vertices_in_range in Hm1 as [? _].
Qed.

(** C7: applying the repair sequence to its own result gives that
    result again, so the second application changes neither the mesh
    nor its vertex and face counts; a mesh on which the sequence fails
    fails the same way. *)
Theorem repair_idempotent m :
  (m1 <-' Repair.repair m; Repair.repair m1) = Repair.repair m.
Proof.
  unfold bind. destruct (Repair.repair m) as [m1|e] eqn:H; [|done].
  by apply repair_repaired, repair_fixed in H.
Qed.

(* ================================================================ *)
(** ** Face indices stay in range (C10) *)

Lemma face_in_range_mono n n' f : n <= n' -> face_in_range n f -> face_in_range n' f.
Proof.
  intros Hn. destruct f as [[a b] c]. rewrite !face_in_range_iff. lia.
Qed.

Lemma shift_face_in_range off n f :
  face_in_range n f -> face_in_range (off + n) (shift_face off f).
Proof.
  destruct f as [[a b] c]. unfold shift_face. rewrite !face_in_range_iff. lia.
Qed.

Lemma wall_faces_in_range off :
  Forall (face_in_range (off + 4 * num_segments)) (wall_faces off).
Proof.
  unfold wall_faces. apply Forall_forall. intros f Hf.
  apply list_elem_of_bind in Hf as (i & Hf & Hi).
  apply elem_of_seq in Hi.
  pose proof (Nat.mod_upper_bound (i + 1) num_segments) as Hmod.
  unfold outer_wall_faces, inner_wall_faces in Hf.
  revert Hf Hmod. generalize ((i + 1) mod num_segments). intros j Hf Hj.
  unfold num_segments in *.
  rewrite !elem_of_app, !elem_of_cons, !elem_of_nil in Hf.
  destruct Hf as [[->|[->|[]]]|[->|[->|[]]]];
    apply face_in_range_iff; lia.
Qed.

Lemma fill_arrays_in_range m m1 :
  faces_in_range m -> fill_arrays m = Ok (Some m1) -> faces_in_range m1.
Proof.
  intros Hm. unfold fill_arrays, bind.
  destruct (find_back_plate m) as [[bp|]|]; try done.
  destruct (0 <? _); [|by destruct m; intros [= <-]].
  destruct (3 <? _); [|by destruct m; intros [= <-]].
  destruct (Delaunay _) as [tri|] eqn:Htri; [|done].
  intros [= <-]. apply Delaunay_simplices_in_range in Htri.
  rewrite length_map in Htri.
  unfold faces_in_range in *. simpl. rewrite length_app.
  apply Forall_app. split.
  - eapply Forall_impl; [exact Hm|]. intros f. apply face_in_range_mono. lia.
  - apply Forall_forall. intros f Hf.
    apply list_elem_of_fmap in Hf as (g & -> & Hg).
    rewrite Forall_forall in Htri. by apply shift_face_in_range, Htri.
Qed.

Lemma recess_arrays_in_range m R r d pos m1 :
  faces_in_range m -> recess_arrays m R r d pos = Ok m1 -> faces_in_range m1.
Proof.
  intros Hm H. apply recess_arrays_Ok in H as (cx & cy & z & _ & _ & Hvs & Hfs).
  unfold faces_in_range in *. rewrite Hvs, Hfs.
  rewrite !length_app, !length_wall_vertices, length_displace.
  change (length angles) with num_segments.
  apply Forall_app. split.
  - eapply Forall_impl; [exact Hm|]. intros f. apply face_in_range_mono. lia.
  - eapply Forall_impl; [apply wall_faces_in_range|].
    intros f. apply face_in_range_mono. lia.
Qed.

Lemma repaired_in_range m : repaired m -> faces_in_range m.
Proof. by intros [? _]. Qed.

Lemma fill_battery_gap_in_range m m' :
  faces_in_range m -> fill_battery_gap m = Ok m' -> faces_in_range m'.
Proof.
  intros Hm. unfold fill_battery_gap, bind.
  destruct (fill_arrays m) as [[m1|]|]; [| |done].
  - intros H. by apply repair_repaired, repaired_in_range in H.
  - by intros [= <-].
Qed.

Lemma add_magsafe_recess_in_range m R r d pos m' :
  add_magsafe_recess m R r d pos = Ok m' -> faces_in_range m'.
Proof.
  unfold add_magsafe_recess, bind.
  destruct (recess_arrays m R r d pos) as [m1|]; [|done].
  destruct (Repair.repair m1) as [m2|] eqn:H2; [|done].
  intros [= <-]. apply fix_normals_in_range.
  by apply repair_repaired, repaired_in_range in H2.
Qed.

(** C10: on a mesh whose faces all refer to existing vertices, every
    face of a mesh returned by [fill_battery_gap], [add_magsafe_recess]
    or [apply_modifications] refers to a vertex of that mesh; and the
    arrays that the two stages build by appending grid or wall vertices
    and offset faces are in range already, so that the repair which
    follows accepts them. *)
Theorem face_indices_stay_in_range m :
  faces_in_range m ->
  (forall m', fill_battery_gap m = Ok m' -> faces_in_range m')
  /\ (forall outer_radius inner_radius depth position m',
        add_magsafe_recess m outer_radius inner_radius depth position = Ok m' ->
        faces_in_range m')
  /\ (forall remove_battery_gap add_magsafe position m',
        apply_modifications m remove_battery_gap add_magsafe position = Ok m' ->
        faces_in_range m')
  /\ (forall m1, fill_arrays m = Ok (Some m1) ->
        faces_in_range m1 /\ exists m', Repair.repair m1 = Ok m')
  /\ (forall outer_radius inner_radius depth position m1,
        recess_arrays m outer_radius inner_radius depth position = Ok m1 ->
        faces_in_range m1 /\ exists m', Repair.repair m1 = Ok m').
Proof.
  intros Hm. split; [intros m'; by apply fill_battery_gap_in_range|].
  split; [intros R r d pos m'; apply add_magsafe_recess_in_range|].
  split.
  { intros g a pos m'. unfold apply_modifications, bind.
    destruct (if g then _ else _) as [m1|] eqn:H1; [|done].
    assert (Hm1 : faces_in_range m1).
    { destruct g; [by eapply fill_battery_gap_in_range|by injection H1 as <-]. }
    destruct (if a then _ else _) as [m2|] eqn:H2; [|done].
    assert (Hm2 : faces_in_range m2).
    { destruct a; [by eapply add_magsafe_recess_in_range|by injection H2 as <-]. }
    destruct (z_min_of _); [|done]. intros [= <-].
    by apply fix_normals_in_range. }
  split.
  - intros m1 H1. pose proof (fill_arrays_in_range _ _ Hm H1) as Hr.
    split; [done|]. by apply repair_total.
  - intros R r d pos m1 H1.
    pose proof (recess_arrays_in_range _ _ _ _ _ _ Hm H1) as Hr.
    split; [done|]. by apply repair_total.
Qed.

(* ================================================================ *)
(** ** Walls and classification (C9) *)

Lemma imap_fixed {A} (g : nat -> A -> A) l :
  (forall i x, l !! i = Some x -> g i x = x) -> imap g l = l.
Proof.
  revert g. induction l as [|y l IH]; intros g Hg; [done|].
  simpl. f_equal; [by apply (Hg 0)|].
  apply IH. intros i x Hi. by apply (Hg (S i)).
Qed.

Lemma back_surface_nonempty vs z :
  z_min_of vs = Ok z -> exists i, i ∈ Np.where_ (back_surface_mask vs z).
Proof.
  intros Hz. apply min_Ok_elem in Hz.
  apply list_elem_of_fmap in Hz as (v & -> & Hv).
  apply list_elem_of_lookup in Hv as [i Hi].
  exists i. apply back_surface_mask_spec. exists v. split; [done|].
  assert (E : (vz v - vz v == 0)%Q) by ring.
  rewrite E. reflexivity.
Qed.

Lemma recess_arrays_empty_vertices m R r d pos :
  vertices m = [] -> exists e, recess_arrays m R r d pos = Raise e.
Proof.
  intros Hvs. unfold recess_arrays, bind.
  destruct (recess_center m pos) as [[cx cy]|e]; [|eauto].
  rewrite Hvs. simpl. eauto.
Qed.

(** C9 (amended): a mesh with a vertex always has a back-surface
    vertex, and on a mesh without vertices [add_magsafe_recess] raises.
    Whatever the classification of the existing vertices, the arrays
    the function builds end with the 256 wall vertices and the 256 wall
    faces, which depend on the centre, the radii, the back height and
    the depth only; when no vertex falls in the ring band the existing
    vertices are left as they are. *)
Theorem recess_walls_do_not_depend_on_classification
    m outer_radius inner_radius depth position m1 :
  recess_arrays m outer_radius inner_radius depth position = Ok m1 ->
  exists center_x center_y z_min,
    recess_center m position = Ok (center_x, center_y)
    /\ z_min_of (vertices m) = Ok z_min
    /\ Np.where_ (back_surface_mask (vertices m) z_min) <> []
    /\ drop (length (vertices m)) (vertices m1)
       = wall_vertices np_cos np_sin center_x center_y outer_radius
                       z_min depth angles
         ++ wall_vertices np_cos np_sin center_x center_y inner_radius
                          z_min depth angles
    /\ length (vertices m1) = length (vertices m) + 4 * num_segments
    /\ faces m1 = faces m ++ wall_faces (length (vertices m))
    /\ length (faces m1) = length (faces m) + 4 * num_segments
    /\ (Np.where_ (ring_area_mask center_x center_y outer_radius
                     inner_radius z_min (vertices m)) = [] ->
        take (length (vertices m)) (vertices m1) = vertices m).
Proof.
  intros H. apply recess_arrays_Ok in H as (cx & cy & z & Hc & Hz & Hvs & Hfs).
  exists cx, cy, z. do 2 (split; [done|]).
  split.
  { destruct (back_surface_nonempty _ _ Hz) as [i Hi].
    intros E. rewrite E in Hi. by apply elem_of_nil in Hi. }
  rewrite Hvs, Hfs.
  split; [by rewrite drop_app_length' by (symmetry; apply length_displace)|].
  split.
  { rewrite !length_app, !length_wall_vertices, length_displace.
    change (length angles) with num_segments. lia. }
  split; [done|].
  split; [by rewrite length_app, length_wall_faces|].
  intros Hnone. rewrite take_app_length' by (symmetry; apply length_displace).
  unfold displace. apply imap_fixed. intros i v Hv.
  destruct (ring_area_mask _ _ _ _ _ _ !! i) as [[]|] eqn:Hi; simpl; try done.
  apply elem_of_where_ in Hi. rewrite Hnone in Hi. by apply elem_of_nil in Hi.
Qed.

(* ================================================================ *)
(** ** What the fill keeps (C6) *)

Lemma is_zero_true q : Repair.is_zero q = true <-> (q == 0)%Q.
Proof. apply Qeq_bool_iff. Qed.

Lemma zero_area_repeated p q r :
  p = q \/ q = r \/ p = r -> Repair.zero_area p q r = true.
Proof.
  intros H. unfold Repair.zero_area, cross, vsub. simpl.
  rewrite !andb_true_iff, !is_zero_true.
  destruct H as [-> | [-> | ->]]; repeat split; ring.
Qed.

Lemma face_set_Permutation f : face_indices (Repair.face_set f) ≡ₚ face_indices f.
Proof.
  destruct f as [[a b] c]. unfold Repair.face_set.
  destruct (a <=? b), (b <=? c), (a <=? c); simpl; solve_Permutation.
Qed.

Lemma merged_index_representative vs i j :
  Repair.merged_index vs (Repair.dedup_by Repair.vertex_key vs) i = Ok j ->
  exists v,
    vs !! i = Some v
    /\ Repair.dedup_by Repair.vertex_key vs !! j = Some (representative vs v)
    /\ Repair.vertex_key (representative vs v) = Repair.vertex_key v.
Proof.
  unfold Repair.merged_index.
  destruct (vs !! i) as [v|]; [|done].
  destruct (Repair.index_of _ _ _) as [j'|] eqn:Hj; [|done].
  intros [= ->]. apply index_of_Some in Hj as (w & Hw & Hk & Hfind).
  rewrite list_find_dedup_by in Hfind.
  exists v. unfold representative. rewrite Hfind. simpl. eauto.
Qed.

Lemma representative_app vs ext v :
  v ∈ vs -> representative (vs ++ ext) v = representative vs v.
Proof.
  intros Hv. unfold representative.
  destruct (list_find_elem_of
              (fun w => Repair.vertex_key w = Repair.vertex_key v) vs v Hv eq_refl)
    as [[i w] Hf].
  by rewrite (list_find_app_l _ _ _ _ _ Hf), Hf.
Qed.

Lemma merged_positions_app_lookup vs ext i :
  i < length vs ->
  merged_positions (vs ++ ext) !! i = merged_positions vs !! i.
Proof.
  intros Hi. unfold merged_positions. rewrite !list_lookup_fmap.
  rewrite lookup_app_l by done.
  apply lookup_lt_is_Some in Hi as [v Hv]. rewrite Hv. simpl.
  f_equal. apply representative_app. by eapply list_elem_of_lookup_2.
Qed.

Lemma degenerate_app vs ext f :
  face_in_range (length vs) f ->
  Repair.degenerate (merged_positions (vs ++ ext)) f
  = Repair.degenerate (merged_positions vs) f.
Proof.
  destruct f as [[a b] c]. intros (Ha & Hb & Hc)%face_in_range_iff.
  unfold Repair.degenerate, corners.
  by rewrite !merged_positions_app_lookup.
Qed.

Lemma corner_keys_app vs ext f :
  face_in_range (length vs) f ->
  corner_keys (vs ++ ext) f = corner_keys vs f.
Proof.
  destruct f as [[a b] c]. intros (Ha & Hb & Hc)%face_in_range_iff.
  unfold corner_keys. simpl. by rewrite !lookup_app_l.
Qed.

Lemma unreferenced_corner_keys m f :
  faces_in_range m -> f ∈ faces m ->
  corner_keys (vertices (Repair.remove_unreferenced_vertices m))
              (map_face (Repair.rank (referenced_mask m)) f)
  = corner_keys (vertices m) f.
Proof.
  intros Hm Hf. destruct f as [[a b] c]. unfold corner_keys, map_face. simpl.
  rewrite !select_lookup_rank; [done|..];
    apply (referenced_of_face m Hm _ _ Hf); simpl; rewrite !elem_of_cons; auto.
Qed.

Lemma repair_vertices_sublist pre m' :
  Repair.repair pre = Ok m' -> sublist (vertices m') (vertices pre).
Proof.
  intros H. apply repair_Ok in H as (m1 & Hm1 & ->).
  apply merge_vertices_Ok in Hm1 as [Hvs _]. simpl.
  etrans; [apply select_sublist|]. rewrite Hvs. apply dedup_by_sublist.
Qed.

Lemma repair_keeps_face pre m' f :
  Repair.repair pre = Ok m' -> f ∈ faces pre ->
  Repair.degenerate (merged_positions (vertices pre)) f = false ->
  exists g, g ∈ faces m'
            /\ corner_keys (vertices m') g ≡ₚ corner_keys (vertices pre) f.
Proof.
  intros H Hf Hd. apply repair_Ok in H as (m1 & Hm1 & ->).
  pose proof (merge_vertices_in_range _ _ Hm1) as [_ Hr1].
  apply merge_vertices_Ok in Hm1 as [Hvs HF].
  apply list_elem_of_lookup in Hf as [k Hk].
  destruct (Forall2_lookup_l _ _ _ _ _ HF Hk) as (f1 & Hk1 & Hf1).
  apply list_elem_of_lookup_2 in Hk1. rewrite Hvs in Hf1.
  destruct f as [[a b] c]. unfold Repair.merged_face, bind in Hf1.
  destruct (Repair.merged_index _ _ a) as [a'|] eqn:Ha; [|done].
  destruct (Repair.merged_index _ _ b) as [b'|] eqn:Hb; [|done].
  destruct (Repair.merged_index _ _ c) as [c'|] eqn:Hc; [|done].
  injection Hf1 as <-.
  apply merged_index_representative in Ha as (va & Hva & Hwa & Hka).
  apply merged_index_representative in Hb as (vb & Hvb & Hwb & Hkb).
  apply merged_index_representative in Hc as (vc & Hvc & Hwc & Hkc).
  set (vs := vertices pre) in *. set (kept := Repair.dedup_by _ vs) in *.
  (* the merged face is not degenerate *)
  assert (Hd1 : Repair.degenerate (vertices m1) (a', b', c') = false).
  { unfold Repair.degenerate, corners, merged_positions in Hd.
    rewrite !list_lookup_fmap, Hva, Hvb, Hvc in Hd. simpl in Hd.
    apply orb_false_iff in Hd as [_ Hz].
    unfold Repair.degenerate, corners. rewrite Hvs, Hwa, Hwb, Hwc. simpl.
    rewrite Hz, orb_false_r. apply bool_decide_eq_false. intros Heq.
    rewrite zero_area_repeated in Hz; [done|].
    destruct Heq as [<- | [<- | <-]]; simplify_eq; auto. }
  (* it survives the removal of degenerate and duplicate faces *)
  assert (Hin2 : (a', b', c') ∈ faces (Repair.remove_degenerate_faces m1)).
  { simpl. by apply list_elem_of_filter. }
  destruct (dedup_by_covers Repair.face_set _ _ Hin2) as (f2 & Hf2 & Hset).
  set (m3 := Repair.remove_duplicate_faces (Repair.remove_degenerate_faces m1)).
  assert (Hr3 : faces_in_range m3)
    by by apply remove_duplicate_in_range, remove_degenerate_in_range.
  exists (map_face (Repair.rank (referenced_mask m3)) f2). split.
  { simpl. by apply list_elem_of_fmap_2. }
  rewrite (unreferenced_corner_keys m3) by done.
  change (vertices m3) with (vertices m1). rewrite Hvs.
  transitivity (corner_keys kept (a', b', c')).
  - unfold corner_keys. apply fmap_Permutation.
    rewrite <- (face_set_Permutation f2), Hset. apply face_set_Permutation.
  - unfold corner_keys. simpl.
    rewrite Hwa, Hwb, Hwc, Hva, Hvb, Hvc. simpl.
    by rewrite Hka, Hkb, Hkc.
Qed.

Lemma fill_arrays_shape m pre :
  fill_arrays m = Ok (Some pre) ->
  exists ext new,
    vertices pre = vertices m ++ ext /\ faces pre = faces m ++ new
    /\ (ext = [] \/ exists bp, find_back_plate m = Ok (Some bp)
                                /\ ext = unique_points bp).
Proof.
  unfold fill_arrays, bind.
  destruct (find_back_plate m) as [[bp|]|]; try done.
  destruct (0 <? _);
    [|intros [= <-]; exists [], []; simpl; rewrite !app_nil_r; auto].
  destruct (3 <? _);
    [|intros [= <-]; exists [], []; simpl; rewrite !app_nil_r; auto].
  destruct (Delaunay _) as [tri|]; [|done].
  intros [= <-]. simpl. do 2 eexists. split; [done|]. split; [done|].
  right. eauto.
Qed.

(** C6 (amended): [fill_battery_gap] moves no vertex: every vertex of
    its result is a vertex of the input or one of the new unique
    points.  Every input face that is not degenerate once
    near-duplicate vertices are merged has a face in the result with
    the same corner positions up to the merge key, wherever the face
    lies.  Degenerate faces are removed by the repair that ends the
    function. *)
Theorem fill_keeps_nondegenerate_faces m m' f :
  fill_battery_gap m = Ok m' ->
  f ∈ faces m ->
  face_in_range (length (vertices m)) f ->
  Repair.degenerate (merged_positions (vertices m)) f = false ->
  (forall v, v ∈ vertices m' ->
     v ∈ vertices m
     \/ exists bp, find_back_plate m = Ok (Some bp) /\ v ∈ unique_points bp)
  /\ exists g, g ∈ faces m'
               /\ corner_keys (vertices m') g ≡ₚ corner_keys (vertices m) f.
Proof.
  intros H Hf Hr Hd. unfold fill_battery_gap, bind in H.
  destruct (fill_arrays m) as [[pre|]|] eqn:Harr; [| |done].
  - apply fill_arrays_shape in Harr as (ext & new & Hvs & Hfs & Hext).
    split.
    + intros v Hv.
      eapply elem_of_sublist in Hv; [|by eapply repair_vertices_sublist].
      rewrite Hvs in Hv. apply elem_of_app in Hv as [Hv|Hv]; [by left|].
      destruct Hext as [->|(bp & Hbp & ->)]; [by apply elem_of_nil in Hv|].
      right. eauto.
    + destruct (repair_keeps_face pre m' f H) as (g & Hg & Hperm).
      * rewrite Hfs. apply elem_of_app. by left.
      * by rewrite Hvs, degenerate_app.
      * exists g. split; [done|]. by rewrite Hperm, Hvs, corner_keys_app.
  - injection H as <-. split; [by left|]. by exists f.
Qed.

End Modifications.

(* ================================================================== *)
(** ** Examples *)

Lemma fan_triangulation_in_range points tri :
  fan_triangulation points = Ok tri ->
  Forall (face_in_range (length points)) tri.
Proof.
  intros [= <-]. apply Forall_forall. intros f Hf.
  apply list_elem_of_fmap in Hf as (i & -> & Hi).
  apply elem_of_seq in Hi. apply face_in_range_iff. lia.
Qed.

(** C1, counterexample: the tetrahedron wound inside out comes back
    with every face reversed, hence with opposite normals, although no
    stage is enabled. *)
Lemma pipeline_without_stages_reverses_inverted_mesh :
  exists m',
    apply_modifications series_cos series_sin fan_triangulation inversion_mask
                        inverted_tetrahedron false false None = Ok m'
    /\ faces m' = map flip (faces inverted_tetrahedron)
    /\ face_normals inverted_tetrahedron !! 0 = Some (Some (V3 0 0 1))
    /\ face_normals m' !! 0 = Some (Some (V3 0 0 (-1)))
    /\ face_normals m' <> face_normals inverted_tetrahedron.
Proof.
  eexists. split; [vm_compute; reflexivity|].
  repeat split; try reflexivity. vm_compute. discriminate.
Qed.

(** C1, witness: the tetrahedron wound outwards is returned as it is. *)
Lemma pipeline_without_stages_witness :
  vertices tetrahedron <> []
  /\ apply_modifications series_cos series_sin fan_triangulation inversion_mask
                         tetrahedron false false None = Ok tetrahedron.
Proof.
  assert (Hv : vertices tetrahedron <> []) by discriminate.
  split; [exact Hv|].
  destruct (pipeline_without_stages series_cos series_sin fan_triangulation
              inversion_mask tetrahedron None Hv)
    as (m' & Hrun & _ & _ & _ & Hfix).
  destruct Hfix as [-> _]; [|exact Hrun].
  repeat constructor.
Defined.

(** C4, counterexample: on the 10 x 10 plate the search region of
    [find_battery_gap] is [2, 8] x [2, 8], and the grid of
    [fill_battery_gap] has the vertex (0, 2, 0), left of it. *)
Lemma fill_grid_leaves_search_region :
  exists lo hi bp v,
    find_battery_gap square_plate = Ok (Some (lo, hi))
    /\ find_back_plate square_plate = Ok (Some bp)
    /\ v ∈ new_vertices bp
    /\ (vx lo == 2)%Q /\ (vx hi == 8)%Q
    /\ (vx v == 0)%Q /\ (vx v < vx lo)%Q
    /\ ~ in_rectangle lo hi v.
Proof.
  do 3 eexists. exists (V3 0 2 0).
  split; [vm_compute; reflexivity|].
  split; [vm_compute; reflexivity|].
  split; [by apply (list_elem_of_lookup_2 _ 1)|].
  repeat split; try reflexivity.
  intros [[Hlo _] _]. by apply Hlo.
Qed.

(** C4, witness: the same grid vertex lies in the bounding box
    [0, 10) x [0, 10) of the back vertices. *)
Lemma fill_grid_in_back_bounding_box_witness :
  exists bp v,
    find_back_plate square_plate = Ok (Some bp)
    /\ v ∈ new_vertices bp
    /\ (x_min bp <= vx v)%Q /\ (vx v < x_max bp)%Q
    /\ (y_min bp <= vy v)%Q /\ (vy v < y_max bp)%Q.
Proof.
  exists (BackPlate (vertices square_plate) 0 10 0 10 0), (V3 0 2 0).
  assert (Hbp : find_back_plate square_plate
                = Ok (Some (BackPlate (vertices square_plate) 0 10 0 10 0)))
    by reflexivity.
  assert (Hv : V3 0 2 0
               ∈ new_vertices (BackPlate (vertices square_plate) 0 10 0 10 0))
    by by apply (list_elem_of_lookup_2 _ 1).
  destruct (fill_grid_in_back_bounding_box square_plate _ _ Hbp Hv)
    as (_ & _ & _ & _ & ? & ? & ? & ? & _).
  by repeat split.
Defined.

(** C8, witness: two back vertices and one grid point leave two unique
    points; the mesh goes to the repair as it came. *)
Lemma fill_skips_triangulation_witness :
  exists bp,
    find_back_plate sliver = Ok (Some bp)
    /\ length (unique_points bp) < 4
    /\ fill_arrays fan_triangulation sliver = Ok (Some sliver)
    /\ fill_battery_gap fan_triangulation sliver = Repair.repair sliver.
Proof.
  exists (BackPlate [V3 0 0 0; V3 1 1 0] 0 1 0 1 0).
  assert (Hbp : find_back_plate sliver
                = Ok (Some (BackPlate [V3 0 0 0; V3 1 1 0] 0 1 0 1 0)))
    by reflexivity.
  assert (Hlen : length (unique_points (BackPlate [V3 0 0 0; V3 1 1 0] 0 1 0 1 0)) < 4)
    by (vm_compute; lia).
  destruct (fill_skips_triangulation_below_four_points fan_triangulation
              sliver _ Hbp Hlen) as [? ?].
  by repeat split.
Defined.


(** C9, counterexample: the only mesh without a back-surface vertex is
    the one without vertices, and there the function raises, whether
    the centre is taken from the bounds or given. *)
Lemma recess_on_empty_mesh_raises :
  Np.where_ (back_surface_mask (vertices empty_mesh) 0) = []
  /\ add_magsafe_recess series_cos series_sin inversion_mask empty_mesh
                        28 (45 # 2) (5 # 2) None
     = Raise TypeError
  /\ add_magsafe_recess series_cos series_sin inversion_mask empty_mesh
                        28 (45 # 2) (5 # 2) (Some (0, 0)%Q)
     = Raise ValueError.
Proof. repeat split; reflexivity. Qed.

(** C9, witness: on the 10 x 10 plate every vertex is in the inner
    disc; nothing is displaced and the walls are there. *)
Lemma recess_walls_witness :
  exists m1,
    recess_arrays series_cos series_sin square_plate 28 (45 # 2) (5 # 2) None
    = Ok m1
    /\ length (vertices m1) = 4 + 256
    /\ length (faces m1) = 2 + 256
    /\ drop 2 (faces m1) = wall_faces 4
    /\ take 4 (vertices m1) = vertices square_plate.
Proof.
  destruct (recess_arrays series_cos series_sin square_plate 28 (45 # 2)
              (5 # 2) None) as [m1|e] eqn:Harr; [|by vm_compute in Harr].
  destruct (recess_walls_do_not_depend_on_classification series_cos series_sin
              square_plate 28 (45 # 2) (5 # 2) None m1 Harr)
    as (cx & cy & z & Hc & Hz & _ & _ & Hlv & Hfs & Hlf & Hkeep).
  injection Hc as <- <-. injection Hz as <-.
  exists m1. split; [done|]. split; [exact Hlv|]. split; [exact Hlf|].
  split; [by rewrite Hfs|]. by apply Hkeep.
Defined.

(** C10, witness: the filled 10 x 10 plate. *)
Lemma face_indices_stay_in_range_witness :
  faces_in_range square_plate
  /\ exists m',
       fill_battery_gap fan_triangulation square_plate = Ok m'
       /\ length (faces m') = 23
       /\ faces_in_range m'.
Proof.
  assert (Hm : faces_in_range square_plate).
  { unfold faces_in_range. repeat constructor. }
  split; [exact Hm|].
  destruct (fill_battery_gap fan_triangulation square_plate) as [m'|e] eqn:Hfill;
    [|by vm_compute in Hfill].
  pose proof (proj1 (face_indices_stay_in_range series_cos series_sin
                       fan_triangulation inversion_mask
                       fan_triangulation_in_range square_plate Hm) m' Hfill)
    as Hr.
  exists m'. split; [reflexivity|]. split; [|exact Hr].
  vm_compute in Hfill. by injection Hfill as <-.
Defined.

(** C6, counterexample: the face (4, 4, 5), five millimetres above the
    back plane, is not in the result: no face of the result has its
    corners. *)
Lemma fill_drops_degenerate_face :
  exists m',
    fill_battery_gap fan_triangulation plate_with_needle = Ok m'
    /\ (4, 4, 5) ∈ faces plate_with_needle
    /\ Np.where_ (fill_back_vertices_mask (vertices plate_with_needle) 0)
       = [0; 1; 2; 3]
    /\ corners (vertices plate_with_needle) (4, 4, 5)
       = Some [V3 0 0 5; V3 0 0 5; V3 1 0 5]
    /\ Forall (fun v => (vz v < 5)%Q) (vertices m')
    /\ (forall g, g ∈ faces m' ->
          ~ corner_keys (vertices m') g
            ≡ₚ corner_keys (vertices plate_with_needle) (4, 4, 5)).
Proof.
  eexists. split; [vm_compute; reflexivity|].
  split; [by apply (list_elem_of_lookup_2 _ 2)|].
  split; [reflexivity|]. split; [reflexivity|].
  split.
  { apply Forall_forall. intros v Hv.
    repeat (apply elem_of_cons in Hv as [->|Hv]; [reflexivity|]).
    by apply elem_of_nil in Hv. }
  intros g _ Hperm.
  assert (Hin : Some (0, 0, 500)%Z
                ∈ corner_keys (vertices plate_with_needle) (4, 4, 5)) by left.
  rewrite <- Hperm in Hin. unfold corner_keys in Hin.
  apply list_elem_of_fmap in Hin as (i & Hi & _).
  match type of Hi with
  | _ = _ <$> ?l !! i => destruct (l !! i) as [v|] eqn:Hv; [|done]
  end.
  injection Hi as Hi. apply list_elem_of_lookup_2 in Hv.
  repeat (apply elem_of_cons in Hv as [->|Hv]; [by vm_compute in Hi|]).
  by apply elem_of_nil in Hv.
Qed.

(** C6, witness: the face (0, 1, 2) of the 10 x 10 plate is kept. *)
Lemma fill_keeps_nondegenerate_faces_witness :
  exists m' g,
    fill_battery_gap fan_triangulation square_plate = Ok m'
    /\ (0, 1, 2) ∈ faces square_plate
    /\ g ∈ faces m'
    /\ corner_keys (vertices m') g
       ≡ₚ corner_keys (vertices square_plate) (0, 1, 2).
Proof.
  destruct (fill_battery_gap fan_triangulation square_plate) as [m'|e] eqn:Hfill;
    [|by vm_compute in Hfill].
  assert (Hf : (0, 1, 2) ∈ faces square_plate) by left.
  assert (Hr : face_in_range (length (vertices square_plate)) (0, 1, 2)).
  { apply face_in_range_iff. simpl. lia. }
  assert (Hd : Repair.degenerate (merged_positions (vertices square_plate))
                                 (0, 1, 2) = false) by (vm_compute; reflexivity).
  destruct (fill_keeps_nondegenerate_faces fan_triangulation square_plate m'
              (0, 1, 2) Hfill Hf Hr Hd) as (_ & g & Hg & Hperm).
  exists m', g. split; [reflexivity|]. split; [exact Hf|].
  split; [exact Hg|exact Hperm].
Defined.

(* ================================================================== *)
(** * Further properties of the pipeline *)

Section MoreProperties.

Variables np_cos np_sin : Q -> Q.
Variable Delaunay : list (Q * Q) -> result (list face).
Variable winding_mask : mesh -> list bool.

Hypothesis Delaunay_simplices_in_range : forall points tri,
  Delaunay points = Ok tri -> Forall (face_in_range (length points)) tri.

(** ** [fill_battery_gap] *)

Lemma where_nil mask :
  (forall i, mask !! i <> Some true) -> Np.where_ mask = [].
Proof.
  intros H. apply elem_of_nil_inv. intros i Hi.
  apply elem_of_where_ in Hi. by apply (H i).
Qed.

Lemma where_nonempty mask i : mask !! i = Some true -> Np.where_ mask <> [].
Proof.
  intros Hi E. apply elem_of_where_ in Hi. rewrite E in Hi.
  by apply elem_of_nil in Hi.
Qed.

(** X1: with [z_min] the lowest Z of the mesh, the back-plane mask of
    [fill_battery_gap] selects exactly the vertices with
    [z < 2 * z_min + 0.5]. *)
Theorem fill_selects_below_twice_the_back vs z i :
  z_min_of vs = Ok z ->
  i ∈ Np.where_ (fill_back_vertices_mask vs z)
  <-> exists v, vs !! i = Some v /\ (vz v < 2 * z + (1 # 2))%Q.
Proof.
  intros Hz. rewrite fill_back_vertices_mask_spec.
  split; intros (v & Hv & Hlt); exists v; (split; [done|]).
  - assert (Hle : (z <= vz v)%Q).
    { eapply min_Ok_le; [exact Hz|].
      apply list_elem_of_fmap_2. by eapply list_elem_of_lookup_2. }
    rewrite Qabs_pos in Hlt by Lqa.lra. Lqa.lra.
  - assert (Hle : (z <= vz v)%Q).
    { eapply min_Ok_le; [exact Hz|].
      apply list_elem_of_fmap_2. by eapply list_elem_of_lookup_2. }
    rewrite Qabs_pos by Lqa.lra. Lqa.lra.
Qed.

Lemma find_back_plate_low m z :
  z_min_of (vertices m) = Ok z -> (z + (1 # 2) <= 0)%Q ->
  find_back_plate m = Ok None.
Proof.
  intros Hz Hlow. unfold find_back_plate, bind. rewrite Hz.
  rewrite where_nil; [done|].
  intros i Hi. apply elem_of_where_, fill_back_vertices_mask_spec in Hi
    as (v & _ & Hlt).
  pose proof (Qabs_nonneg (vz v - z)). Lqa.lra.
Qed.

(** X2: when the lowest vertex lies at [z <= -0.5] no vertex passes the
    mask, and [fill_battery_gap] returns its argument as it is, without
    infill and without repair. *)
Theorem fill_returns_input_when_back_is_low m z :
  z_min_of (vertices m) = Ok z -> (z + (1 # 2) <= 0)%Q ->
  fill_arrays Delaunay m = Ok None /\ fill_battery_gap Delaunay m = Ok m.
Proof.
  intros Hz Hlow.
  assert (Harr : fill_arrays Delaunay m = Ok None).
  { unfold fill_arrays, bind. by rewrite (find_back_plate_low m z). }
  split; [done|]. unfold fill_battery_gap, bind. by rewrite Harr.
Qed.

Lemma select_nonempty {A} mask (vs : list A) i v :
  mask !! i = Some true -> vs !! i = Some v -> v ∈ Np.select mask vs.
Proof.
  intros Hm Hv. apply (list_elem_of_lookup_2 _ (Repair.rank mask i)).
  by rewrite select_lookup_rank.
Qed.

Lemma max_Ok_iff l : l <> [] <-> exists z, Np.max l = Ok z.
Proof.
  destruct l; simpl; split; try done; eauto. by intros [? ?].
Qed.

Lemma max_Ok_elem l z : Np.max l = Ok z -> z ∈ l.
Proof.
  destruct l as [|x l]; simpl; [done|]. intros [= <-].
  revert x. induction l as [|a l IH]; intros x; simpl; [left|].
  specialize (IH (Qmax x a)).
  apply elem_of_cons in IH as [->|IH].
  - unfold Qmax, GenericMinMax.gmax.
    destruct (x ?= a)%Q; [left|right; left|left].
  - by do 2 right.
Qed.

(** X3: when the lowest vertex lies above [-0.5] the back plate is
    found: it contains the lowest vertex, its height is [z_min], and it
    comes with the XY bounding box of the selected vertices. *)
Theorem fill_finds_back_plate m z :
  z_min_of (vertices m) = Ok z -> (0 < z + (1 # 2))%Q ->
  exists bp,
    find_back_plate m = Ok (Some bp)
    /\ plate_z bp = z
    /\ (exists v, v ∈ back_verts bp /\ vz v = z)
    /\ (forall v, v ∈ back_verts bp ->
          v ∈ vertices m
          /\ (x_min bp <= vx v)%Q /\ (vx v <= x_max bp)%Q
          /\ (y_min bp <= vy v)%Q /\ (vy v <= y_max bp)%Q).
Proof.
  intros Hz Hpos.
  pose proof (min_Ok_elem _ _ Hz) as Hin.
  apply list_elem_of_fmap in Hin as (v0 & Hv0 & Hin).
  apply list_elem_of_lookup in Hin as [i Hi].
  assert (Hmask : fill_back_vertices_mask (vertices m) z !! i = Some true).
  { apply elem_of_where_, fill_back_vertices_mask_spec. exists v0.
    split; [done|]. rewrite <- Hv0.
    assert (E : (z - z == 0)%Q) by ring. rewrite E. exact Hpos. }
  pose proof (select_nonempty _ _ _ _ Hmask Hi) as Hsel.
  set (back := Np.select (fill_back_vertices_mask (vertices m) z) (vertices m))
    in *.
  assert (Hne : forall g : vertex -> Q, map g back <> []).
  { intros g E. destruct back; [by apply elem_of_nil in Hsel|done]. }
  destruct (proj1 (min_Ok_iff _) (Hne vx)) as [x0 Hx0].
  destruct (proj1 (min_Ok_iff _) (Hne vy)) as [y0 Hy0].
  destruct (proj1 (max_Ok_iff _) (Hne vx)) as [x1 Hx1].
  destruct (proj1 (max_Ok_iff _) (Hne vy)) as [y1 Hy1].
  exists (BackPlate back x0 x1 y0 y1 z). split.
  { unfold find_back_plate, bind. rewrite Hz.
    destruct (length _ =? 0) eqn:Hlen.
    - apply Nat.eqb_eq, nil_length_inv in Hlen.
      by apply (where_nonempty _ _ Hmask) in Hlen.
    - fold back. by rewrite Hx0, Hy0, Hx1, Hy1. }
  split; [done|]. split; [by exists v0|].
  intros v Hv. simpl in *. split.
  { eapply elem_of_sublist; [exact Hv|apply select_sublist]. }
  repeat split.
  - eapply min_Ok_le; [exact Hx0|by apply list_elem_of_fmap_2].
  - eapply max_Ok_ge; [exact Hx1|by apply list_elem_of_fmap_2].
  - eapply min_Ok_le; [exact Hy0|by apply list_elem_of_fmap_2].
  - eapply max_Ok_ge; [exact Hy1|by apply list_elem_of_fmap_2].
Qed.

Lemma fill_battery_gap_no_vertices m :
  vertices m = [] -> fill_battery_gap Delaunay m = Raise ValueError.
Proof.
  intros Hvs. unfold fill_battery_gap, fill_arrays, find_back_plate, bind.
  by rewrite Hvs.
Qed.

(** X4: on a mesh without vertices [fill_battery_gap] raises the
    [ValueError] of [vertices[:, 2].min()]. *)
Theorem fill_raises_on_empty_mesh m :
  vertices m = [] -> fill_battery_gap Delaunay m = Raise ValueError.
Proof. apply fill_battery_gap_no_vertices. Qed.

Lemma bounds_empty m : vertices m = [] -> bounds m = None.
Proof. intros Hvs. unfold bounds, referenced_mask. by rewrite Hvs. Qed.

(** X5: on a mesh without vertices [apply_modifications] raises,
    whatever the flags: the [ValueError] of a minimum over no vertex
    (in the fill, in the recess with a given position, or in the final
    read of the back plate), or the [TypeError] of subscripting the
    [None] bounds when the recess has to find its centre. *)
Theorem apply_raises_on_empty_mesh m remove_battery_gap add_magsafe position :
  vertices m = [] ->
  apply_modifications np_cos np_sin Delaunay winding_mask m
                      remove_battery_gap add_magsafe position
  = Raise (if remove_battery_gap then ValueError
           else if add_magsafe
                then match position with
                     | None => TypeError
                     | Some _ => ValueError
                     end
                else ValueError).
Proof.
  intros Hvs. unfold apply_modifications, bind.
  destruct remove_battery_gap; [by rewrite fill_battery_gap_no_vertices|].
  destruct add_magsafe.
  - unfold add_magsafe_recess, recess_arrays, recess_center, bind.
    destruct position as [[cx cy]|].
    + by rewrite Hvs.
    + by rewrite bounds_empty.
  - rewrite fix_normals_vertices. by rewrite Hvs.
Qed.

Lemma arange_empty start stop step :
  (stop == start)%Q -> Np.arange start stop step = [].
Proof.
  intros E. unfold Np.arange.
  assert (E0 : ((stop - start) / step == 0)%Q).
  { rewrite E. unfold Qdiv. ring. }
  by rewrite E0.
Qed.

Lemma grid_vertices_empty x0 x1 y0 y1 z :
  (x1 == x0)%Q \/ (y1 == y0)%Q -> grid_vertices x0 x1 y0 y1 z = [].
Proof.
  intros [E|E]; unfold grid_vertices.
  - by rewrite (arange_empty _ _ _ E).
  - rewrite (arange_empty y0 y1 _ E).
    induction (Np.arange x0 x1 2) as [|x l IH]; [done|].
    by rewrite bind_cons, IH.
Qed.

(** X6: when the selected back vertices have no extent in X or in Y,
    the grid is empty and [fill_battery_gap] hands the input arrays to
    the repair: nothing is appended. *)
Theorem fill_adds_nothing_to_a_flat_box m bp :
  find_back_plate m = Ok (Some bp) ->
  (x_max bp == x_min bp)%Q \/ (y_max bp == y_min bp)%Q ->
  new_vertices bp = []
  /\ fill_arrays Delaunay m = Ok (Some m)
  /\ fill_battery_gap Delaunay m = Repair.repair m.
Proof.
  intros Hbp Hflat.
  assert (Hnew : new_vertices bp = []) by by apply grid_vertices_empty.
  assert (Harr : fill_arrays Delaunay m = Ok (Some m)).
  { unfold fill_arrays, bind. rewrite Hbp, Hnew. by destruct m. }
  split; [done|]. split; [done|].
  unfold fill_battery_gap, bind. by rewrite Harr.
Qed.

(** *** [np.unique] on the rounded points *)

Lemma row_compare_eq r s : row_compare r s = Eq -> r = s.
Proof.
  destruct r as [[a b] c], s as [[a' b'] c']. unfold row_compare.
  destruct (Z.compare_spec a a'); try done.
  destruct (Z.compare_spec b b'); try done.
  destruct (Z.compare_spec c c'); try done. by subst.
Qed.

Lemma row_compare_gt r s : row_compare r s = Gt -> row_lt s r.
Proof.
  destruct r as [[a b] c], s as [[a' b'] c']. unfold row_lt, row_compare.
  destruct (Z.compare_spec a a'), (Z.compare_spec a' a); try done; try lia.
  destruct (Z.compare_spec b b'), (Z.compare_spec b' b); try done; try lia.
  destruct (Z.compare_spec c c'), (Z.compare_spec c' c); try done; lia.
Qed.

Lemma row_lt_irrefl r : ~ row_lt r r.
Proof.
  destruct r as [[a b] c]. unfold row_lt, row_compare.
  by rewrite !Z.compare_refl.
Qed.

Lemma row_lt_trans r s t : row_lt r s -> row_lt s t -> row_lt r t.
Proof.
  destruct r as [[a b] c], s as [[a' b'] c'], t as [[a'' b''] c''].
  unfold row_lt, row_compare.
  destruct (Z.compare_spec a a'), (Z.compare_spec a' a''),
    (Z.compare_spec a a''); try done; try lia.
  destruct (Z.compare_spec b b'), (Z.compare_spec b' b''),
    (Z.compare_spec b b''); try done; try lia.
  destruct (Z.compare_spec c c'), (Z.compare_spec c' c''),
    (Z.compare_spec c c''); try done; lia.
Qed.

Lemma elem_of_insert_row r l x : x ∈ insert_row r l <-> x = r \/ x ∈ l.
Proof.
  induction l as [|s l IH]; simpl.
  - rewrite list_elem_of_singleton, elem_of_nil. tauto.
  - destruct (row_compare r s) eqn:E.
    + apply row_compare_eq in E as ->. rewrite elem_of_cons. tauto.
    + rewrite !elem_of_cons. tauto.
    + rewrite !elem_of_cons, IH. tauto.
Qed.

Lemma insert_row_sorted r l :
  StronglySorted row_lt l -> StronglySorted row_lt (insert_row r l).
Proof.
  induction 1 as [|s l Hl IH Hs]; simpl; [repeat constructor|].
  destruct (row_compare r s) eqn:E.
  - by constructor.
  - constructor; [by constructor|]. constructor; [done|].
    eapply Forall_impl; [exact Hs|]. intros t. by apply row_lt_trans.
  - constructor; [done|]. apply Forall_forall. intros t Ht.
    apply elem_of_insert_row in Ht as [->|Ht].
    + by apply row_compare_gt.
    + rewrite Forall_forall in Hs. by apply Hs.
Qed.

Lemma unique_rows_sorted l : StronglySorted row_lt (unique_rows l).
Proof.
  induction l as [|r l IH]; simpl; [constructor|]. by apply insert_row_sorted.
Qed.

Lemma elem_of_unique_rows l x : x ∈ unique_rows l <-> x ∈ l.
Proof.
  induction l as [|r l IH]; simpl; [done|].
  by rewrite elem_of_insert_row, elem_of_cons, IH.
Qed.

Lemma sorted_rows_NoDup l : StronglySorted row_lt l -> NoDup l.
Proof.
  induction 1 as [|s l _ IH Hs]; constructor; [|done].
  intros Hin. rewrite Forall_forall in Hs. by apply (row_lt_irrefl s), Hs.
Qed.

Lemma row_vertex_inj r s : row_vertex r = row_vertex s -> r = s.
Proof.
  destruct r as [[a b] c], s as [[a' b'] c']. unfold row_vertex.
  unfold Np.of_hundredths, Qdiv, Qmult, Qinv. simpl.
  intros [= Ea Eb Ec]. f_equal; [f_equal|]; lia.
Qed.

(** X7: [unique_points] are the rounded back vertices and grid points,
    each of them once, in the lexicographic order of [np.unique]. *)
Theorem unique_points_are_the_distinct_rounded_points bp :
  StronglySorted row_lt
    (unique_rows (map round_row (back_verts bp ++ new_vertices bp)))
  /\ NoDup (unique_points bp)
  /\ forall p,
       p ∈ unique_points bp
       <-> exists v, v ∈ back_verts bp ++ new_vertices bp
                     /\ p = row_vertex (round_row v).
Proof.
  split; [apply unique_rows_sorted|]. split.
  - unfold unique_points. apply NoDup_fmap_2_strong.
    + intros r s _ _. apply row_vertex_inj.
    + apply sorted_rows_NoDup, unique_rows_sorted.
  - intros p. unfold unique_points. rewrite list_elem_of_fmap. split.
    + intros (r & -> & Hr). rewrite elem_of_unique_rows in Hr.
      apply list_elem_of_fmap in Hr as (v & -> & Hv). eauto.
    + intros (v & Hv & ->). exists (round_row v). split; [done|].
      apply elem_of_unique_rows. by apply list_elem_of_fmap_2.
Qed.

(** X8: the arrays of [fill_battery_gap] start with the input vertices
    and faces, and every appended face refers to appended vertices
    only: the infill never uses a vertex of the input mesh. *)
Theorem fill_infill_uses_new_vertices m pre :
  fill_arrays Delaunay m = Ok (Some pre) ->
  take (length (vertices m)) (vertices pre) = vertices m
  /\ take (length (faces m)) (faces pre) = faces m
  /\ Forall (fun f =>
               Forall (fun i => length (vertices m) <= i < length (vertices pre))
                      (face_indices f))
            (drop (length (faces m)) (faces pre)).
Proof.
  unfold fill_arrays, bind.
  destruct (find_back_plate m) as [[bp|]|]; try done.
  assert (Hsame : Ok (Some (Trimesh (vertices m) (faces m))) = Ok (Some pre) ->
    take (length (vertices m)) (vertices pre) = vertices m
    /\ take (length (faces m)) (faces pre) = faces m
    /\ Forall (fun f =>
                 Forall (fun i => length (vertices m) <= i < length (vertices pre))
                        (face_indices f))
              (drop (length (faces m)) (faces pre))).
  { intros [= <-]. simpl. rewrite !firstn_all, drop_all. by repeat split. }
  destruct (0 <? _); [|done].
  destruct (3 <? _); [|done].
  destruct (Delaunay _) as [tri|] eqn:Htri; [|done].
  intros [= <-]. simpl. apply Delaunay_simplices_in_range in Htri.
  rewrite length_map in Htri.
  rewrite !take_app_length, drop_app_length, length_app.
  do 2 (split; [done|]).
  apply Forall_forall. intros f Hf.
  apply list_elem_of_fmap in Hf as (g & -> & Hg).
  rewrite Forall_forall in Htri. specialize (Htri g Hg).
  destruct g as [[a b] c]. apply face_in_range_iff in Htri.
  simpl. rewrite !Forall_cons, Forall_nil. lia.
Qed.

(** ** [add_magsafe_recess] *)

(** X9: in the vertex array of [add_magsafe_recess] every vertex of the
    mesh keeps its place in the array and its X and Y; its Z is kept
    or raised by [depth]; and a vertex that is not within 0.5 of the
    back plane is left as it is, whatever its distance from the
    centre. *)
Theorem recess_moves_back_vertices_only m outer_radius inner_radius depth
    position m' z_min i v :
  recess_arrays np_cos np_sin m outer_radius inner_radius depth position
  = Ok m' ->
  z_min_of (vertices m) = Ok z_min ->
  vertices m !! i = Some v ->
  exists v',
    vertices m' !! i = Some v'
    /\ vx v' = vx v /\ vy v' = vy v
    /\ (vz v' = vz v \/ vz v' = (vz v + depth)%Q)
    /\ (~ (Qabs (vz v - z_min) < 1 # 2)%Q -> v' = v).
Proof.
  intros Harr Hz Hv.
  apply recess_arrays_Ok in Harr as (cx & cy & z & _ & Hz' & Hvs & _).
  rewrite Hz in Hz'. injection Hz' as <-.
  rewrite Hvs, lookup_app_l
    by (rewrite length_displace; by eapply lookup_lt_Some).
  unfold displace, ring_area_mask.
  rewrite list_lookup_imap, list_lookup_fmap, Hv.
  cbn [fmap option_fmap option_map default from_option].
  destruct (negb _ && _ && _) eqn:Hmask.
  - eexists. split; [done|]. simpl. repeat split; auto.
    intros Hnb. apply andb_true_iff in Hmask as [_ Hb].
    by apply ltb_lt in Hb.
  - exists v. repeat split; auto.
Qed.

Lemma bind_pair_lookup {A B} (f : A -> list B) l i a k :
  (forall x, length (f x) = 2) -> l !! i = Some a -> k < 2 ->
  (l ≫= f) !! (2 * i + k) = f a !! k.
Proof.
  intros Hf. revert i. induction l as [|x l IH]; intros i Hi Hk; [done|].
  rewrite bind_cons. destruct i as [|i]; simpl in Hi.
  - injection Hi as ->. rewrite lookup_app_l; [done|]. rewrite Hf. lia.
  - rewrite lookup_app_r by (rewrite Hf; lia). rewrite Hf.
    replace (2 * S i + k - 2) with (2 * i + k) by lia. by apply IH.
Qed.

(** X10: the wall vertices follow the mesh vertices in the array: for
    the [i]-th angle [a], the outer ring has its bottom vertex
    [(cx + R cos a, cy + R sin a, z_min)] at index [n + 2 i] and the
    top vertex, [depth] above it, at [n + 2 i + 1]; the inner ring has
    the same at radius [r], 128 places further. *)
Theorem recess_wall_vertex_layout m outer_radius inner_radius depth position
    m' center_x center_y z_min i a :
  recess_arrays np_cos np_sin m outer_radius inner_radius depth position
  = Ok m' ->
  recess_center m position = Ok (center_x, center_y) ->
  z_min_of (vertices m) = Ok z_min ->
  angles !! i = Some a ->
  let n := length (vertices m) in
  let rim radius height :=
    V3 (center_x + radius * np_cos a) (center_y + radius * np_sin a) height in
  vertices m' !! (n + 2 * i) = Some (rim outer_radius z_min)
  /\ vertices m' !! (n + 2 * i + 1)
     = Some (rim outer_radius (z_min + depth)%Q)
  /\ vertices m' !! (n + 2 * num_segments + 2 * i)
     = Some (rim inner_radius z_min)
  /\ vertices m' !! (n + 2 * num_segments + 2 * i + 1)
     = Some (rim inner_radius (z_min + depth)%Q).
Proof.
  intros Harr Hc Hz Ha n rim.
  apply recess_arrays_Ok in Harr as (cx & cy & z & Hc' & Hz' & Hvs & _).
  rewrite Hc in Hc'. rewrite Hz in Hz'.
  injection Hc' as <- <-. injection Hz' as <-.
  assert (Hlen : forall R,
    length (wall_vertices np_cos np_sin center_x center_y R z_min depth angles)
    = 2 * num_segments).
  { intros R. by rewrite length_wall_vertices. }
  assert (Hring : forall R k, k < 2 ->
    wall_vertices np_cos np_sin center_x center_y R z_min depth angles
      !! (2 * i + k)
    = [rim R z_min; rim R (z_min + depth)%Q] !! k).
  { intros R k Hk. unfold wall_vertices.
    by rewrite (bind_pair_lookup _ _ i a k). }
  pose proof (lookup_lt_Some _ _ _ Ha) as Hi.
  change (length angles) with num_segments in Hi.
  rewrite Hvs. unfold n.
  repeat split.
  - rewrite lookup_app_r by (rewrite length_displace; lia).
    rewrite length_displace, lookup_app_l by (rewrite Hlen; lia).
    replace (_ + 2 * i - _) with (2 * i + 0) by lia. by rewrite Hring by lia.
  - rewrite lookup_app_r by (rewrite length_displace; lia).
    rewrite length_displace, lookup_app_l by (rewrite Hlen; lia).
    replace (_ + 2 * i + 1 - _) with (2 * i + 1) by lia. by rewrite Hring by lia.
  - rewrite lookup_app_r by (rewrite length_displace; lia).
    rewrite length_displace, lookup_app_r by (rewrite Hlen; lia).
    rewrite Hlen.
    replace (_ + 2 * num_segments + 2 * i - _ - _) with (2 * i + 0) by lia.
    by rewrite Hring by lia.
  - rewrite lookup_app_r by (rewrite length_displace; lia).
    rewrite length_displace, lookup_app_r by (rewrite Hlen; lia).
    rewrite Hlen.
    replace (_ + 2 * num_segments + 2 * i + 1 - _ - _) with (2 * i + 1) by lia.
    by rewrite Hring by lia.
Qed.


Lemma directed_edges_shift off f :
  directed_edges (shift_face off f)
  = prod_map (Nat.add off) (Nat.add off) <$> directed_edges f.
Proof. by destruct f as [[a b] c]. Qed.

Lemma bind_directed_edges_shift off fs :
  (map (shift_face off) fs) ≫= directed_edges
  = prod_map (Nat.add off) (Nat.add off) <$> (fs ≫= directed_edges).
Proof.
  induction fs as [|f fs IH]; [done|].
  cbn [map]. by rewrite !bind_cons, fmap_app, directed_edges_shift, IH.
Qed.

Lemma NoDup_directed_edges_shift off fs :
  NoDup (fs ≫= directed_edges) ->
  NoDup (map (shift_face off) fs ≫= directed_edges).
Proof.
  intros Hnd. rewrite bind_directed_edges_shift.
  apply NoDup_fmap_2; [|done].
  intros [u v] [u' v'] [= ? ?]. f_equal; lia.
Qed.

Lemma distinct_pairs_NoDup l :
  distinct_pairs (edge_code <$> l) = true -> NoDup l.
Proof.
  induction l as [|x l IH]; [constructor|].
  cbn [fmap list_fmap distinct_pairs]. intros [Hx Hl]%andb_true_iff.
  constructor; [|by apply IH].
  intros Hin. apply negb_true_iff in Hx.
  assert (Hex : existsb (fun y => (((edge_code x).1 =? y.1)%N
                                   && ((edge_code x).2 =? y.2)%N))
                        (edge_code <$> l) = true); [|congruence].
  apply existsb_exists. exists (edge_code x). split.
  - apply list_elem_of_In. by apply list_elem_of_fmap_2.
  - by rewrite !N.eqb_refl.
Qed.

(** X11: each wall is wound consistently: among the faces of the outer
    wall no directed edge occurs twice, and likewise for the inner
    wall, so that two wall faces meeting in an edge run along it in
    opposite directions. *)
Theorem walls_are_wound_consistently vertex_offset :
  NoDup (outer_wall vertex_offset ≫= directed_edges)
  /\ NoDup (inner_wall vertex_offset ≫= directed_edges).
Proof.
  rewrite outer_wall_shift, inner_wall_shift.
  split; apply NoDup_directed_edges_shift, distinct_pairs_NoDup;
    by vm_compute.
Qed.

Lemma Forall_shift_face (P P0 : face -> Prop) off fs :
  (forall f, P0 f -> P (shift_face off f)) ->
  Forall P0 fs -> Forall P (map (shift_face off) fs).
Proof.
  intros HP H. induction H as [|f fs Hf _ IH]; cbn [map]; constructor; auto.
Qed.

(** X12: the faces of the outer wall use the 128 vertices of the outer
    ring only, those of the inner wall the 128 vertices of the inner
    ring, and no wall face names a vertex twice: the walls touch
    neither each other nor the vertices of the mesh. *)
Theorem walls_use_their_own_ring vertex_offset :
  Forall (fun f =>
            Forall (fun i => vertex_offset <= i < vertex_offset + 2 * num_segments)
                   (face_indices f)
            /\ NoDup (face_indices f))
         (outer_wall vertex_offset)
  /\ Forall (fun f =>
               Forall (fun i => vertex_offset + 2 * num_segments <= i
                                < vertex_offset + 4 * num_segments)
                      (face_indices f)
               /\ NoDup (face_indices f))
            (inner_wall vertex_offset).
Proof.
  rewrite outer_wall_shift, inner_wall_shift. split.
  - eapply (Forall_shift_face _
      (fun f => Forall (fun i => i < 2 * num_segments) (face_indices f)
                /\ NoDup (face_indices f))).
    + intros [[a b] c] [Hr Hnd]. simpl in *.
      rewrite !Forall_cons, Forall_nil in Hr. split.
      * rewrite !Forall_cons, Forall_nil. lia.
      * rewrite !NoDup_cons, !not_elem_of_cons in Hnd.
        rewrite !NoDup_cons, !not_elem_of_cons.
        repeat split; try lia; try apply not_elem_of_nil; apply NoDup_nil_2.
    + apply (bool_decide_unpack _). by vm_compute.
  - eapply (Forall_shift_face _
      (fun f => Forall (fun i => 2 * num_segments <= i < 4 * num_segments)
                       (face_indices f)
                /\ NoDup (face_indices f))).
    + intros [[a b] c] [Hr Hnd]. simpl in *.
      rewrite !Forall_cons, Forall_nil in Hr. split.
      * rewrite !Forall_cons, Forall_nil. lia.
      * rewrite !NoDup_cons, !not_elem_of_cons in Hnd.
        rewrite !NoDup_cons, !not_elem_of_cons.
        repeat split; try lia; try apply not_elem_of_nil; apply NoDup_nil_2.
    + apply (bool_decide_unpack _). by vm_compute.
Qed.

Lemma recess_arrays_total m outer_radius inner_radius depth position c z :
  recess_center m position = Ok c -> z_min_of (vertices m) = Ok z ->
  exists m', recess_arrays np_cos np_sin m outer_radius inner_radius depth
                           position = Ok m'.
Proof.
  intros Hc Hz. unfold recess_arrays, bind. rewrite Hc, Hz.
  destruct c as [cx cy]. cbv beta iota zeta.
  rewrite length_app, !length_wall_vertices, length_wall_faces.
  change (0 <? length angles * 2 + length angles * 2) with true.
  change (0 <? 256) with true. cbv iota. eauto.
Qed.

End MoreProperties.

(** ** [analyzer.find_battery_gap] *)

Lemma find_battery_gap_Some m lo hi :
  find_battery_gap m = Ok (Some (lo, hi)) ->
  exists z bottom bx0 bx1 by0 by1,
    z_min_of (vertices m) = Ok z
    /\ bottom = Np.select (map (fun v => Np.leb (vz v) (z + 2)) (vertices m))
                          (vertices m)
    /\ Np.min (map vx bottom) = Ok bx0 /\ Np.max (map vx bottom) = Ok bx1
    /\ Np.min (map vy bottom) = Ok by0 /\ Np.max (map vy bottom) = Ok by1
    /\ lo = V3 ((bx0 + bx1) / 2 - (bx1 - bx0) * (6 # 10) / 2)
               ((by0 + by1) / 2 - (by1 - by0) * (6 # 10) / 2) z
    /\ hi = V3 ((bx0 + bx1) / 2 + (bx1 - bx0) * (6 # 10) / 2)
               ((by0 + by1) / 2 + (by1 - by0) * (6 # 10) / 2) (z + 5).
Proof.
  unfold find_battery_gap, bind. fold (z_min_of (vertices m)).
  destruct (z_min_of (vertices m)) as [z|]; [|done].
  destruct (_ =? 0); [done|].
  destruct (Np.min (map vx _)) as [bx0|] eqn:Hx0; [|done].
  destruct (Np.min (map vy _)) as [by0|] eqn:Hy0; [|done].
  destruct (Np.max (map vx _)) as [bx1|] eqn:Hx1; [|done].
  destruct (Np.max (map vy _)) as [by1|] eqn:Hy1; [|done].
  intros [= <- <-]. eexists z, _, bx0, bx1, by0, by1. by repeat split.
Qed.

Lemma min_le_max l lo hi : Np.min l = Ok lo -> Np.max l = Ok hi -> (lo <= hi)%Q.
Proof.
  intros Hlo Hhi. eapply max_Ok_ge; [exact Hhi|]. by apply min_Ok_elem.
Qed.

(** X13: [find_battery_gap] raises [ValueError] on a mesh without
    vertices and returns a region on every other mesh: the lowest
    vertex is always within 2 mm of the bottom, so the [(None, None)]
    result is never produced. *)
Theorem find_battery_gap_always_finds_a_region m :
  find_battery_gap m <> Ok None
  /\ (vertices m = [] -> find_battery_gap m = Raise ValueError)
  /\ (vertices m <> [] -> exists lo hi, find_battery_gap m = Ok (Some (lo, hi))).
Proof.
  assert (Hfound : forall z, z_min_of (vertices m) = Ok z ->
            exists lo hi, find_battery_gap m = Ok (Some (lo, hi))).
  { intros z Hz. pose proof (min_Ok_elem _ _ Hz) as Hin.
    apply list_elem_of_fmap in Hin as (v0 & Hv0 & Hin).
    apply list_elem_of_lookup in Hin as [i Hi].
    set (mask := map (fun v => Np.leb (vz v) (z + 2)) (vertices m)).
    assert (Hmask : mask !! i = Some true).
    { unfold mask. rewrite list_lookup_fmap, Hi. simpl. f_equal.
      apply leb_le. rewrite <- Hv0. Lqa.lra. }
    pose proof (select_nonempty _ _ _ _ Hmask Hi) as Hsel.
    assert (Hne : forall g : vertex -> Q,
              map g (Np.select mask (vertices m)) <> []).
    { intros g E. destruct (Np.select mask (vertices m));
        [by apply elem_of_nil in Hsel|done]. }
    destruct (proj1 (min_Ok_iff _) (Hne vx)) as [x0 Hx0].
    destruct (proj1 (min_Ok_iff _) (Hne vy)) as [y0 Hy0].
    destruct (proj1 (max_Ok_iff _) (Hne vx)) as [x1 Hx1].
    destruct (proj1 (max_Ok_iff _) (Hne vy)) as [y1 Hy1].
    unfold find_battery_gap, bind. fold (z_min_of (vertices m)).
    rewrite Hz. fold mask.
    destruct (length _ =? 0) eqn:Hlen.
    - apply Nat.eqb_eq, nil_length_inv in Hlen.
      by apply (where_nonempty _ _ Hmask) in Hlen.
    - rewrite Hx0, Hy0, Hx1, Hy1. eauto. }
  split; [|split].
  - destruct (z_min_of (vertices m)) as [z|e] eqn:Hz.
    + destruct (Hfound z eq_refl) as (lo & hi & ->). done.
    + unfold find_battery_gap, bind. fold (z_min_of (vertices m)).
      by rewrite Hz.
  - intros Hvs. unfold find_battery_gap, bind. by rewrite Hvs.
  - intros Hvs.
    assert (Hne : map vz (vertices m) <> [])
      by (by destruct (vertices m)).
    apply min_Ok_iff in Hne as [z Hz]. by apply (Hfound z).
Qed.

(** X14: the region returned by [find_battery_gap] is centred on the
    XY bounding box of the vertices within 2 mm of the bottom, has 60%
    of its width and height, lies inside it, and spans the heights
    from [z_min] to [z_min + 5]. *)
Theorem find_battery_gap_region m lo hi :
  find_battery_gap m = Ok (Some (lo, hi)) ->
  exists z bottom bx0 bx1 by0 by1,
    z_min_of (vertices m) = Ok z
    /\ bottom = Np.select (map (fun v => Np.leb (vz v) (z + 2)) (vertices m))
                          (vertices m)
    /\ Np.min (map vx bottom) = Ok bx0 /\ Np.max (map vx bottom) = Ok bx1
    /\ Np.min (map vy bottom) = Ok by0 /\ Np.max (map vy bottom) = Ok by1
    /\ vz lo = z /\ vz hi = (z + 5)%Q
    /\ (vx hi - vx lo == (6 # 10) * (bx1 - bx0))%Q
    /\ (vy hi - vy lo == (6 # 10) * (by1 - by0))%Q
    /\ (vx lo + vx hi == bx0 + bx1)%Q
    /\ (vy lo + vy hi == by0 + by1)%Q
    /\ (bx0 <= vx lo)%Q /\ (vx lo <= vx hi)%Q /\ (vx hi <= bx1)%Q
    /\ (by0 <= vy lo)%Q /\ (vy lo <= vy hi)%Q /\ (vy hi <= by1)%Q.
Proof.
  intros H.
  apply find_battery_gap_Some in H
    as (z & bottom & bx0 & bx1 & by0 & by1
        & Hz & Hb & Hx0 & Hx1 & Hy0 & Hy1 & -> & ->).
  pose proof (min_le_max _ _ _ Hx0 Hx1) as Hx.
  pose proof (min_le_max _ _ _ Hy0 Hy1) as Hy.
  exists z, bottom, bx0, bx1, by0, by1. simpl.
  unfold Qdiv. change (/ 2)%Q with (1 # 2)%Q.
  repeat split; try done; Lqa.lra.
Qed.

(** ** [hole_detector.py] *)

(** X15: [detect_holes_simple] returns the number of outline entities
    when there is an outline; otherwise the Euler fallback, which is
    never negative: 0 for an Euler number of 1 or more, and the floor
    of [(2 - euler) / 2] below that; and [-1] exactly when there is
    neither an outline nor an Euler number. *)
Theorem detect_holes_simple_cases outline euler_number :
  (-1 <= Holes.detect_holes_simple outline euler_number)%Z
  /\ (Holes.detect_holes_simple outline euler_number = (-1)%Z
      <-> (forall n, outline <> Holes.OutlineEntities n) /\ euler_number = None)
  /\ (forall n, outline = Holes.OutlineEntities n ->
        Holes.detect_holes_simple outline euler_number = Z.of_nat n)
  /\ (forall euler,
        (forall n, outline <> Holes.OutlineEntities n) ->
        euler_number = Some euler ->
        let holes := Holes.detect_holes_simple outline euler_number in
        (1 <= euler -> holes = 0)%Z
        /\ (euler <= 0 -> 1 <= holes /\ 2 * holes <= 2 - euler < 2 * holes + 2)%Z).
Proof.
  unfold Holes.detect_holes_simple.
  split; [destruct outline, euler_number; lia|].
  split.
  { split; [intros E|intros [Hn He]].
    - split; [intros n ->; lia|].
      destruct outline, euler_number; try done; lia.
    - subst euler_number. destruct outline as [| |n]; try done.
      by destruct (Hn n). }
  split; [by intros n ->|].
  intros euler Hn ->. cbv zeta.
  destruct outline as [| |n]; [| |by destruct (Hn n)];
    pose proof (Z.div_mod (2 - euler) 2 ltac:(done));
    pose proof (Z.mod_pos_bound (2 - euler) 2 ltac:(done)); lia.
Qed.

Lemma string_append_assoc (s1 s2 s3 : string) :
  ((s1 ++ s2) ++ s3 = s1 ++ (s2 ++ s3))%string.
Proof.
  induction s1 as [|c s1 IH]; [done|].
  change (String c ((s1 ++ s2) ++ s3) = String c (s1 ++ (s2 ++ s3)))%string.
  by rewrite IH.
Qed.

(** X16: [verify_hole_count] accepts exactly when the count is known
    and equals the expected one; an unknown count is reported as such
    and never accepted, not even for an expected count of -1; a known
    count is always named at the start of the message. *)
Theorem verify_hole_count_accepts_known_matching_counts
    outline euler_number expected_count :
  let hole_count := Holes.detect_holes_simple outline euler_number in
  let verdict := Holes.verify_hole_count outline euler_number expected_count in
  (fst verdict = true <-> hole_count = expected_count /\ hole_count <> (-1)%Z)
  /\ (hole_count = (-1)%Z ->
      verdict = (false, "Could not detect holes in mesh"%string))
  /\ (hole_count <> (-1)%Z ->
      exists rest,
        snd verdict
        = ("Detected approximately " ++ pretty hole_count
           ++ " holes/boundaries" ++ Holes.newline ++ rest)%string).
Proof.
  cbv zeta. unfold Holes.verify_hole_count.
  set (hole_count := Holes.detect_holes_simple outline euler_number).
  destruct (Z.eqb_spec hole_count (-1)) as [Eu|Eu].
  { split; [split; [done|by intros [_ ?]]|]. split; [done|]. by intros ?. }
  destruct (Z.eqb_spec hole_count expected_count) as [Ee|Ee]; simpl.
  - split; [by split|]. split; [done|]. intros _. eexists.
    by rewrite !string_append_assoc.
  - split; [split; [done|by intros [? _]]|]. split; [done|]. intros _.
    eexists. by rewrite !string_append_assoc.
Qed.

(* ================================================================== *)
(** ** Examples for the further properties *)

Lemma fill_selects_below_twice_the_back_witness :
  z_min_of (vertices raised_plates) = Ok 10%Q
  /\ 3 ∈ Np.where_ (fill_back_vertices_mask (vertices raised_plates) 10).
Proof.
  assert (Hz : z_min_of (vertices raised_plates) = Ok 10%Q) by reflexivity.
  split; [exact Hz|].
  apply (fill_selects_below_twice_the_back _ _ 3 Hz).
  exists (V3 0 0 15). by split.
Defined.

Lemma fill_returns_input_when_back_is_low_witness :
  z_min_of (vertices sunk_triangle) = Ok (-1)%Q
  /\ (-1 + (1 # 2) <= 0)%Q
  /\ fill_battery_gap fan_triangulation sunk_triangle = Ok sunk_triangle.
Proof.
  assert (Hz : z_min_of (vertices sunk_triangle) = Ok (-1)%Q) by reflexivity.
  assert (Hlow : (-1 + (1 # 2) <= 0)%Q) by discriminate.
  split; [exact Hz|]. split; [exact Hlow|].
  apply (fill_returns_input_when_back_is_low fan_triangulation _ _ Hz Hlow).
Defined.

Lemma fill_finds_back_plate_witness :
  z_min_of (vertices square_plate) = Ok 0%Q
  /\ (0 < 0 + (1 # 2))%Q
  /\ exists bp, find_back_plate square_plate = Ok (Some bp) /\ plate_z bp = 0%Q.
Proof.
  assert (Hz : z_min_of (vertices square_plate) = Ok 0%Q) by reflexivity.
  assert (Hpos : (0 < 0 + (1 # 2))%Q) by reflexivity.
  split; [exact Hz|]. split; [exact Hpos|].
  destruct (fill_finds_back_plate square_plate 0 Hz Hpos)
    as (bp & Hbp & Hpz & _).
  by exists bp.
Defined.

Lemma fill_raises_on_empty_mesh_witness :
  vertices empty_mesh = []
  /\ fill_battery_gap fan_triangulation empty_mesh = Raise ValueError.
Proof.
  split; [reflexivity|].
  by apply (fill_raises_on_empty_mesh fan_triangulation empty_mesh).
Defined.

Lemma apply_raises_on_empty_mesh_witness :
  vertices empty_mesh = []
  /\ apply_modifications series_cos series_sin fan_triangulation inversion_mask
                         empty_mesh false true None = Raise TypeError.
Proof.
  split; [reflexivity|].
  by apply (apply_raises_on_empty_mesh series_cos series_sin fan_triangulation
              inversion_mask empty_mesh false true None).
Defined.

Lemma fill_adds_nothing_to_a_flat_box_witness :
  exists bp,
    find_back_plate upright_triangle = Ok (Some bp)
    /\ (x_max bp == x_min bp)%Q
    /\ fill_arrays fan_triangulation upright_triangle = Ok (Some upright_triangle).
Proof.
  exists (BackPlate [V3 0 0 0; V3 0 10 0] 0 0 0 10 0).
  assert (Hbp : find_back_plate upright_triangle
                = Ok (Some (BackPlate [V3 0 0 0; V3 0 10 0] 0 0 0 10 0)))
    by reflexivity.
  assert (Hflat : (0 == 0)%Q \/ (10 == 0)%Q) by (by left).
  destruct (fill_adds_nothing_to_a_flat_box fan_triangulation upright_triangle
              _ Hbp Hflat) as (_ & Harr & _).
  split; [exact Hbp|]. split; [reflexivity|exact Harr].
Defined.

Lemma fill_infill_uses_new_vertices_witness :
  exists pre,
    fill_arrays fan_triangulation square_plate = Ok (Some pre)
    /\ take 4 (vertices pre) = vertices square_plate
    /\ Forall (fun f => Forall (fun i => 4 <= i < length (vertices pre))
                               (face_indices f))
              (drop 2 (faces pre)).
Proof.
  destruct (fill_arrays fan_triangulation square_plate) as [[pre|]|e] eqn:Harr;
    [|by vm_compute in Harr..].
  destruct (fill_infill_uses_new_vertices fan_triangulation
              fan_triangulation_in_range square_plate pre Harr)
    as (Hvs & _ & Hnew).
  exists pre. split; [reflexivity|]. split; [exact Hvs|exact Hnew].
Defined.

Lemma recess_moves_back_vertices_only_witness :
  exists m' v',
    recess_arrays series_cos series_sin wide_plate 28 (45 # 2) (5 # 2) None
    = Ok m'
    /\ vertices m' !! 5 = Some v'
    /\ vx v' = 60%Q /\ vy v' = 50%Q.
Proof.
  destruct (recess_arrays_total series_cos series_sin wide_plate
              28 (45 # 2) (5 # 2) None _ 0%Q eq_refl eq_refl) as [m' Harr].
  destruct (recess_moves_back_vertices_only series_cos series_sin wide_plate
              28 (45 # 2) (5 # 2) None m' 0%Q 5 (V3 60 50 0)
              Harr eq_refl eq_refl) as (v' & Hv' & Hx & Hy & _).
  exists m', v'. split; [exact Harr|]. split; [exact Hv'|]. by split.
Defined.

Lemma recess_wall_vertex_layout_witness :
  exists m' a,
    recess_arrays series_cos series_sin wide_plate 28 (45 # 2) (5 # 2) None
    = Ok m'
    /\ angles !! 1 = Some a
    /\ vertices m' !! (6 + 2 * 1)
       = Some (V3 ((0 + 100) / 2 + 28 * series_cos a)
                  ((0 + 100) / 2 + 28 * series_sin a) 0)
    /\ vertices m' !! (6 + 2 * 1 + 1)
       = Some (V3 ((0 + 100) / 2 + 28 * series_cos a)
                  ((0 + 100) / 2 + 28 * series_sin a) (0 + (5 # 2))).
Proof.
  destruct (recess_arrays_total series_cos series_sin wide_plate
              28 (45 # 2) (5 # 2) None _ 0%Q eq_refl eq_refl) as [m' Harr].
  destruct (angles !! 1) as [a|] eqn:Ha; [|discriminate Ha].
  destruct (recess_wall_vertex_layout series_cos series_sin wide_plate
              28 (45 # 2) (5 # 2) None m' _ _ 0%Q 1 a
              Harr eq_refl eq_refl Ha) as (Hb & Ht & _).
  exists m', a. split; [exact Harr|]. split; [reflexivity|].
  split; [exact Hb|exact Ht].
Defined.

Lemma find_battery_gap_region_witness :
  exists lo hi,
    find_battery_gap square_plate = Ok (Some (lo, hi))
    /\ (vx hi - vx lo == (6 # 10) * (10 - 0))%Q
    /\ vz hi = (0 + 5)%Q.
Proof.
  destruct (find_battery_gap square_plate) as [[[lo hi]|]|e] eqn:Hgap;
    [|discriminate Hgap..].
  destruct (find_battery_gap_region square_plate lo hi Hgap)
    as (z & bottom & bx0 & bx1 & by0 & by1
        & Hz & -> & Hx0 & Hx1 & _ & _ & _ & Hzhi & Hw & _).
  injection Hz as <-. injection Hx0 as <-. injection Hx1 as <-.
  exists lo, hi. split; [reflexivity|]. split; [exact Hw|exact Hzhi].
Defined.
